(** * docformatter: a shallow embedding of [docformatter.py]

    The program reformats the docstrings of a Python source text.  Python's
    [str] values are modelled as lists of characters whose code points lie in
    the Latin-1 range (one [ascii] per code point), with the character classes
    of Python 3 on that range.  Exceptions are modelled by an error monad. *)

From Stdlib Require Import Ascii String List Bool Arith ZArith Lia.
Import ListNotations.

Set Implicit Arguments.

(** ** Python strings *)

Definition str := list ascii.

(** A literal of the modelled program. *)
Definition L (s : string) : str := list_ascii_of_string s.

Definition chr (n : nat) : ascii := ascii_of_nat n.

Definition dquote : ascii := chr 34.
Definition squote : ascii := chr 39.
Definition backslash : ascii := chr 92.
Definition LF : ascii := chr 10.
Definition CR : ascii := chr 13.
Definition TAB : ascii := chr 9.
Definition SP : ascii := chr 32.
Definition dot : ascii := chr 46.
Definition hash : ascii := chr 35.

Definition triple_double : str := [dquote; dquote; dquote].
Definition triple_single : str := [squote; squote; squote].

Definition between (lo hi n : nat) : bool := (lo <=? n) && (n <=? hi).

(** [str.isspace] of one character, and the class [\s] of [re] on [str]
    patterns: code points 9-13, 28-32, 133 and 160. *)
Definition isspace (c : ascii) : bool :=
  let n := nat_of_ascii c in
  between 9 13 n || between 28 32 n || (n =? 133) || (n =? 160).

(** [str.isalnum] of one character. *)
Definition isalnum (c : ascii) : bool :=
  let n := nat_of_ascii c in
  between 48 57 n || between 65 90 n || between 97 122 n
  || (n =? 170) || between 178 179 n || (n =? 181) || between 185 186 n
  || between 188 190 n || between 192 214 n || between 216 246 n
  || between 248 255 n.

(** The line boundaries of [str.splitlines]: 10-13, 28-30 and 133. *)
Definition islinebreak (c : ascii) : bool :=
  let n := nat_of_ascii c in
  between 10 13 n || between 28 30 n || (n =? 133).

Definition eqc (a b : ascii) : bool := Ascii.eqb a b.

Fixpoint dropwhile (p : ascii -> bool) (s : str) : str :=
  match s with
  | [] => []
  | c :: t => if p c then dropwhile p t else s
  end.

Definition isempty (s : str) : bool :=
  match s with [] => true | _ :: _ => false end.

Definition mem (c : ascii) (cs : str) : bool := existsb (eqc c) cs.

(** [s.lstrip()], [s.rstrip()], [s.strip()] and [s.rstrip(chars)]. *)
Definition lstrip (s : str) : str := dropwhile isspace s.
Definition rstrip (s : str) : str := rev (dropwhile isspace (rev s)).
Definition strip (s : str) : str := lstrip (rstrip s).
Definition rstrip_chars (cs s : str) : str :=
  rev (dropwhile (fun c => mem c cs) (rev s)).

(** [s.startswith(p)] and [s.endswith(p)]. *)
Fixpoint startswith (p s : str) : bool :=
  match p, s with
  | [], _ => true
  | _ :: _, [] => false
  | a :: p', b :: s' => eqc a b && startswith p' s'
  end.

Definition endswith (p s : str) : bool := startswith (rev p) (rev s).

(** [s.find(sep)]: the index of the leftmost occurrence. *)
Fixpoint find (sep s : str) : option nat :=
  if startswith sep s then Some 0
  else match s with
       | [] => None
       | _ :: t => option_map S (find sep t)
       end.

(** [sep in s], which is also [s.count(sep) != 0]. *)
Definition contains (sep s : str) : bool :=
  match find sep s with Some _ => true | None => false end.

(** [s.split(sep, 1)]: [Some (a, b)] for the list [[a, b]], [None] for the
    one-element list [[s]]. *)
Definition split1 (sep s : str) : option (str * str) :=
  match find sep s with
  | Some i => Some (firstn i s, skipn (i + length sep) s)
  | None => None
  end.

(** [s.rsplit(sep, 1)], cut at the rightmost occurrence. *)
Definition rsplit1 (sep s : str) : option (str * str) :=
  match find (rev sep) (rev s) with
  | Some j => Some (rev (skipn (j + length sep) (rev s)), rev (firstn j (rev s)))
  | None => None
  end.

(** [sep.join(parts)]. *)
Fixpoint join (sep : str) (parts : list str) : str :=
  match parts with
  | [] => []
  | [x] => x
  | x :: rest => x ++ sep ++ join sep rest
  end.

(** [s.splitlines()]: [cur] holds the reversed characters of the line being
    read; a carriage return directly followed by a line feed is one boundary. *)
Fixpoint splitlines_from (cur : str) (s : str) : list str :=
  match s with
  | [] => match cur with [] => [] | _ :: _ => [rev cur] end
  | c :: t =>
      if islinebreak c then
        match t with
        | d :: t' =>
            if eqc c CR && eqc d LF
            then rev cur :: splitlines_from [] t'
            else rev cur :: splitlines_from [] t
        | [] => [rev cur]
        end
      else splitlines_from (c :: cur) t
  end.

Definition splitlines (s : str) : list str := splitlines_from [] s.

(** ** Exceptions *)

Inductive exn : Type := AssertionError | IndexError.

Inductive result (A : Type) : Type :=
| Ok (a : A)
| Raise (e : exn).

Arguments Ok {A} a.
Arguments Raise {A} e.

Definition bind {A B : Type} (m : result A) (k : A -> result B) : result B :=
  match m with
  | Ok a => k a
  | Raise e => Raise e
  end.

Notation "x <- m ;; k" := (bind m (fun x => k))
  (at level 61, m at next level, right associativity).

(** [xs[i]] for a non-negative index. *)
Definition index {A : Type} (xs : list A) (i : nat) : result A :=
  match nth_error xs i with
  | Some a => Ok a
  | None => Raise IndexError
  end.

(** ** [strip_docstring] *)

Definition strip_docstring (docstring : str) : result str :=
  let single := startswith triple_single (lstrip docstring) in
  if single && negb (endswith triple_single (rstrip docstring))
  then Raise AssertionError
  else
    let triple := if single then triple_single else triple_double in
    match split1 triple docstring with
    | None => Raise IndexError
    | Some (_, rest) =>
        match rsplit1 triple rest with
        | Some (body, _) => Ok (strip body)
        | None => Ok (strip rest)
        end
    end.

(** ** [split_summary_and_description] *)

(** [re.split(r'\.\s', contents, maxsplit=1)]: [Some (a, b)] for the list
    [[a, b]], [None] when the pattern does not occur. *)
Fixpoint re_split_dot_space (s : str) : option (str * str) :=
  match s with
  | [] => None
  | c :: r =>
      match r with
      | [] => None
      | d :: t =>
          if eqc c dot && isspace d then Some ([], t)
          else match re_split_dot_space r with
               | Some (a, b) => Some (c :: a, b)
               | None => None
               end
      end
  end.

Definition break_on_first_sentence (contents : str) : str * str :=
  match re_split_dot_space contents with
  | Some (a, b) => (strip a ++ [dot], strip b)
  | None => (strip contents, [])
  end.

Definition split_summary_and_description (contents : str)
  : result (str * str) :=
  let split := splitlines contents in
  blank <- (if 1 <? length split
            then (l <- index split 1 ;; Ok (isempty (strip l)))
            else Ok false) ;;
  if blank then
    s0 <- index split 0 ;;
    Ok (s0, join [LF] (skipn 2 split))
  else
    symbol <- (if 1 <? length split
               then (l <- index split 1 ;;
                     c <- index (strip l) 0 ;;
                     Ok (negb (isalnum c)))
               else Ok false) ;;
    if symbol then
      s0 <- index split 0 ;;
      Ok (s0, join [LF] (skipn 1 split))
    else Ok (break_on_first_sentence contents).

(** ** [normalize_summary] *)

(** The part of [s] matched by [\s*]: is there a line feed in the run of
    whitespace at the head of [s]? *)
Fixpoint run_has_newline (s : str) : bool :=
  match s with
  | [] => false
  | c :: t => isspace c && (eqc c LF || run_has_newline t)
  end.

(** [re.sub(r'\s*\n\s*', ' ', s)], scanning from the left.  [inside] records
    that the scan is within a run that has already been replaced.  A match
    starts at a whitespace character whose run reaches a line feed and, both
    stars being greedy, covers the run to its end. *)
Fixpoint re_sub_newlines (inside : bool) (s : str) : str :=
  match s with
  | [] => []
  | c :: t =>
      if isspace c then
        if inside then re_sub_newlines true t
        else if run_has_newline s then SP :: re_sub_newlines true t
        else c :: re_sub_newlines false t
      else c :: re_sub_newlines false t
  end.

(** [s[-1]] of a non-empty string, tested with [p]. *)
Definition last_is (p : ascii -> bool) (s : str) : bool :=
  match rev s with
  | [] => false
  | c :: _ => p c
  end.

Definition normalize_summary (summary : str) : str :=
  let summary := re_sub_newlines false (rstrip summary) in
  if negb (isempty summary) && last_is isalnum summary
  then summary ++ [dot]
  else summary.

(** ** [indent_non_indented] *)

Fixpoint str_eqb (a b : str) : bool :=
  match a, b with
  | [], [] => true
  | x :: a', y :: b' => eqc x y && str_eqb a' b'
  | _, _ => false
  end.

Definition indent_non_indented (line indentation : str) : str :=
  if str_eqb (lstrip line) line then indentation ++ line else line.

(** ** Formatting options *)

Record options : Type := {
  summary_wrap_length : Z;
  pre_summary_newline : bool;
  post_description_blank : bool
}.

Definition default_options : options :=
  {| summary_wrap_length := 0;
     pre_summary_newline := false;
     post_description_blank := true |}.

(** ** Tokens of [tokenize.generate_tokens] *)

Inductive token_kind : Type :=
| ENDMARKER | NAME | NUMBER | STRING | NEWLINE | INDENT | DEDENT
| OP | COMMENT | NL | ERRORTOKEN.

Definition token_kind_eqb (a b : token_kind) : bool :=
  match a, b with
  | ENDMARKER, ENDMARKER | NAME, NAME | NUMBER, NUMBER | STRING, STRING
  | NEWLINE, NEWLINE | INDENT, INDENT | DEDENT, DEDENT | OP, OP
  | COMMENT, COMMENT | NL, NL | ERRORTOKEN, ERRORTOKEN => true
  | _, _ => false
  end.

Record token : Type := {
  token_type : token_kind;
  token_string : str;
  start_row : Z;
  start_column : Z;
  end_row : Z;
  end_column : Z;
  line : str
}.

(** [s[i:j]] with Python's treatment of negative and overlong indices. *)
Definition clamp (len i : Z) : Z :=
  if (i <? 0)%Z then Z.max 0 (i + len) else Z.min i len.

Definition py_slice (s : str) (i j : Z) : str :=
  let len := Z.of_nat (length s) in
  let lo := clamp len i in
  let hi := clamp len j in
  firstn (Z.to_nat (hi - lo)) (skipn (Z.to_nat lo) s).

(** ** [starts_with_triple] *)

Definition starts_with_triple (string : str) : bool :=
  startswith triple_double (strip string)
  || startswith triple_single (strip string).

(** ** The transformer and the reconstructor

    [textwrap.wrap] belongs to Python's library, not to the program: it is a
    parameter of the development, taking the text, the width, the initial
    indent and the subsequent indent and returning the wrapped lines. *)

Section Docformatter.

Variable textwrap_wrap : str -> Z -> str -> str -> list str.

(** *** [wrap_summary] *)

Definition wrap_summary (summary initial_indent subsequent_indent : str)
    (wrap_length : Z) : str :=
  if (0 <? wrap_length)%Z then
    strip (join [LF]
             (textwrap_wrap summary wrap_length initial_indent
                subsequent_indent))
  else summary.

(** *** [format_docstring] *)

Definition format_docstring (indentation docstring : str) (o : options)
  : result str :=
  contents <- strip_docstring docstring ;;
  if contains triple_double contents then Ok docstring
  else
    p <- split_summary_and_description contents ;;
    let (summary, description) := p in
    if negb (isempty description) then
      let initial_indent :=
        if pre_summary_newline o then indentation
        else repeat SP 3 ++ indentation in
      Ok (triple_double
          ++ (if pre_summary_newline o then LF :: indentation else [])
          ++ lstrip (wrap_summary (normalize_summary summary)
                       initial_indent indentation (summary_wrap_length o))
          ++ [LF; LF]
          ++ join [LF]
               (map (fun l => rstrip (indent_non_indented l indentation))
                  (splitlines description))
          ++ (if post_description_blank o then [LF] else [])
          ++ [LF]
          ++ indentation ++ triple_double)
    else
      Ok (strip (wrap_summary
                   (triple_double ++ normalize_summary contents
                    ++ triple_double)
                   indentation indentation (summary_wrap_length o))).

(** *** [format_code]

    The walker's local variables. *)
Record walker : Type := {
  formatted : str;
  previous_token_string : str;
  previous_token_type : option token_kind;
  previous_line : str;
  last_row : Z;
  last_column : Z
}.

Definition initial_walker : walker :=
  {| formatted := [];
     previous_token_string := [];
     previous_token_type := None;
     previous_line := [];
     last_row := 0;
     last_column := -1 |}.

(** The characters [' \t\n\r\\'] stripped from the previous line. *)
Definition continuation_chars : str := [SP; TAB; LF; CR; backslash].

(** The guard of the escaped-newline branch. *)
Definition escaped_newline (w : walker) (t : token) : bool :=
  negb (startswith [hash] (lstrip (previous_line w)))
  && (last_row w <? start_row t)%Z
  && (endswith [backslash; LF] (previous_line w)
      || endswith [backslash; CR; LF] (previous_line w)
      || endswith [backslash; CR] (previous_line w)).

(** What the branch appends: [previous_line[len(previous_line.rstrip(..)):]]. *)
Definition escaped_segment (w : walker) : str :=
  skipn (length (rstrip_chars continuation_chars (previous_line w)))
    (previous_line w).

(** The guard of the docstring branch. *)
Definition is_docstring (w : walker) (t : token) : bool :=
  token_kind_eqb (token_type t) STRING
  && starts_with_triple (token_string t)
  && match previous_token_type w with
     | Some k => token_kind_eqb k INDENT
     | None => false
     end.

(** The text between the cursor and the token, kept by the spacing branch. *)
Definition spacing (w : walker) (t : token) : str :=
  let column := if (last_row w <? start_row t)%Z then 0%Z else last_column w in
  if (column <? start_column t)%Z
  then py_slice (line t) column (start_column t)
  else [].

(** The walker after a token whose text was written as [text]. *)
Definition advance (w : walker) (t : token) (text : str) : walker :=
  {| formatted :=
       formatted w
       ++ (if escaped_newline w t then escaped_segment w else [])
       ++ spacing w t ++ text;
     previous_token_string := token_string t;
     previous_token_type := Some (token_type t);
     previous_line := line t;
     last_row := end_row t;
     last_column := end_column t |}.

(** One iteration of the loop over the tokens. *)
Definition walk (o : options) (w : walker) (t : token) : result walker :=
  text <- (if is_docstring w t
           then format_docstring (previous_token_string w) (token_string t) o
           else Ok (token_string t)) ;;
  Ok (advance w t text).

Fixpoint walk_all (o : options) (w : walker) (ts : list token)
  : result walker :=
  match ts with
  | [] => Ok w
  | t :: rest => w' <- walk o w t ;; walk_all o w' rest
  end.

(** [format_code] on the token stream of the source. *)
Definition format_code (tokens : list token) (o : options) : result str :=
  w <- walk_all o initial_walker tokens ;; Ok (formatted w).

End Docformatter.

(** ** Lines and words of a text, in the words of the specification *)

(** The lines of a text: the pieces between its line feeds. *)
Fixpoint lines_from (cur : str) (s : str) : list str :=
  match s with
  | [] => [rev cur]
  | c :: t =>
      if eqc c LF then rev cur :: lines_from [] t
      else lines_from (c :: cur) t
  end.

Definition lines (s : str) : list str := lines_from [] s.



(** Every text of a list is at most [n] characters long. *)
Abbreviation narrow n := (Forall (fun l : str => length l <= n)).


(** ** The split rules in the words of the specification *)

(** The content has at least two lines and the second one is blank. *)
Definition blank_second_line (contents : str) : bool :=
  match splitlines contents with
  | _ :: l2 :: _ => forallb isspace l2
  | _ => false
  end.

(** The content has at least two lines and the first non-whitespace
    character of the second one is not alphanumeric. *)
Definition symbol_second_line (contents : str) : bool :=
  match splitlines contents with
  | _ :: l2 :: _ =>
      match lstrip l2 with
      | c :: _ => negb (isalnum c)
      | [] => false
      end
  | _ => false
  end.

(** No period of [s] is followed by a whitespace character. *)
Definition no_dot_space (s : str) : Prop :=
  forall a d b, s = a ++ dot :: d :: b -> isspace d = false.

(** The sentence rule read literally: the separator is a period followed by
    the space character. *)
Definition split_on_period_space (contents : str) : str * str :=
  match split1 [dot; SP] contents with
  | Some (a, b) => (strip a ++ [dot], strip b)
  | None => (strip contents, [])
  end.

(** ** The docstring classifier in the words of the specification *)

(** A token of kind STRING whose text begins with a triple-quote delimiter
    and whose preceding token was of kind INDENT. *)
Definition docstring_literal (w : walker) (t : token) : Prop :=
  token_type t = STRING
  /\ (startswith triple_double (token_string t) = true
      \/ startswith triple_single (token_string t) = true)
  /\ previous_token_type w = Some INDENT.

(** The same classifier on a token [t] and the token [p] before it in the
    stream. *)
Definition docstring_literal_after (p t : token) : Prop :=
  token_type t = STRING
  /\ (startswith triple_double (token_string t) = true
      \/ startswith triple_single (token_string t) = true)
  /\ token_type p = INDENT.

(** The walker once the token [p] has been handled, with [out] written. *)
Definition after_token (p : token) (out : str) : walker :=
  {| formatted := out;
     previous_token_string := token_string p;
     previous_token_type := Some (token_type p);
     previous_line := line p;
     last_row := end_row p;
     last_column := end_column p |}.

(** What the walker writes between the text already written and the text
    of the token. *)
Definition gap (w : walker) (t : token) : str :=
  (if escaped_newline w t then escaped_segment w else []) ++ spacing w t.

(** The three spellings of a line-continuation backslash at the end of a
    raw line. *)
Definition continuation_endings : list str :=
  [[backslash; LF]; [backslash; CR; LF]; [backslash; CR]].

(** ** Worked inputs *)

Definition mk_token (k : token_kind) (text : str) (r1 c1 r2 c2 : Z)
    (raw : str) : token :=
  {| token_type := k; token_string := text;
     start_row := r1; start_column := c1;
     end_row := r2; end_column := c2; line := raw |}.

(** A statement with a trailing comment that ends in a backslash, followed
    by a second statement. *)
Definition comment_line : str := L "x = 1  # c \" ++ [LF].
Definition second_line : str := L "y = 2" ++ [LF].
Definition comment_source : str := comment_line ++ second_line.

(** The tokens [tokenize.generate_tokens] yields for [comment_source]. *)
Definition comment_tokens : list token :=
  [ mk_token NAME (L "x") 1 0 1 1 comment_line;
    mk_token OP (L "=") 1 2 1 3 comment_line;
    mk_token NUMBER (L "1") 1 4 1 5 comment_line;
    mk_token COMMENT (L "# c \") 1 7 1 12 comment_line;
    mk_token NEWLINE [LF] 1 12 1 13 comment_line;
    mk_token NAME (L "y") 2 0 2 1 second_line;
    mk_token OP (L "=") 2 2 2 3 second_line;
    mk_token NUMBER (L "2") 2 4 2 5 second_line;
    mk_token NEWLINE [LF] 2 5 2 6 second_line;
    mk_token ENDMARKER [] 3 0 3 0 [] ]%Z.

(** Every token text is the slice of its raw line at its position. *)
Definition well_placed (t : token) : bool :=
  str_eqb (py_slice (line t) (start_column t) (end_column t))
    (token_string t).

(** A statement continued over a line that holds only a backslash, and the
    tokens [tokenize.generate_tokens] yields for it: row 2 carries no
    token. *)
Definition sum_line : str := L "x = 1 + \" ++ [LF].
Definition bare_line : str := L "    \" ++ [LF].
Definition operand_line : str := L "    2" ++ [LF].
Definition continuation_source : str := sum_line ++ bare_line ++ operand_line.

Definition continuation_tokens : list token :=
  [ mk_token NAME (L "x") 1 0 1 1 sum_line;
    mk_token OP (L "=") 1 2 1 3 sum_line;
    mk_token NUMBER (L "1") 1 4 1 5 sum_line;
    mk_token OP (L "+") 1 6 1 7 sum_line;
    mk_token NUMBER (L "2") 3 4 3 5 operand_line;
    mk_token NEWLINE [LF] 3 5 3 6 operand_line;
    mk_token ENDMARKER [] 4 0 4 0 [] ]%Z.

(** A function with a one-line docstring in single quotes, and the tokens
    [tokenize.generate_tokens] yields for it. *)
Definition def_line : str := L "def f():" ++ [LF].
Definition docstring_text : str := triple_single ++ L "a. b" ++ triple_single.
Definition body_line : str := L "    " ++ docstring_text ++ [LF].

Definition def_tokens : list token :=
  [ mk_token NAME (L "def") 1 0 1 3 def_line;
    mk_token NAME (L "f") 1 4 1 5 def_line;
    mk_token OP (L "(") 1 5 1 6 def_line;
    mk_token OP (L ")") 1 6 1 7 def_line;
    mk_token OP (L ":") 1 7 1 8 def_line;
    mk_token NEWLINE [LF] 1 8 1 9 def_line ]%Z.

Definition indent_token : token :=
  mk_token INDENT (L "    ") 2 0 2 4 body_line.
Definition docstring_token : token :=
  mk_token STRING docstring_text 2 4 2 14 body_line.

Definition end_tokens : list token :=
  [ mk_token NEWLINE [LF] 2 14 2 15 body_line;
    mk_token DEDENT [] 3 0 3 0 [];
    mk_token ENDMARKER [] 3 0 3 0 [] ]%Z.

Definition docstring_tokens : list token :=
  def_tokens ++ indent_token :: docstring_token :: end_tokens.

(** A token list that the tokenizer does not yield: a STRING token that
    opens with three single quotes and is not closed, after an INDENT. *)
Definition unclosed_tokens : list token :=
  [ mk_token INDENT (L "    ") 1 0 1 4 (L "    " ++ triple_single ++ L "a");
    mk_token STRING (triple_single ++ L "a") 1 4 1 8
      (L "    " ++ triple_single ++ L "a") ]%Z.

(** A wrap capability that keeps the text on one line, and the lines
    [textwrap.wrap] gives for a summary of 56 columns at width 40. *)
Definition one_line (text : str) (width : Z) (initial subsequent : str)
  : list str := [initial ++ text].


Definition wrapped_long_summary (text : str) (width : Z)
    (initial subsequent : str) : list str :=
  [ L "   Return the sum of the two numbers";
    L "    that were given to it." ].

(** ** Texts of one line *)

(** No character of the text is a line boundary of [str.splitlines]. *)
Definition one_physical_line (s : str) : bool :=
  forallb (fun c => negb (islinebreak c)) s.

(** ** Token streams *)

(** A STRING token whose text [starts_with_triple] accepts. *)
Definition triple_string (t : token) : bool :=
  token_kind_eqb (token_type t) STRING && starts_with_triple (token_string t).

(** A text that opens with three single quotes also closes with them. *)
Definition closed_single (s : str) : bool :=
  negb (startswith triple_single (lstrip s))
  || endswith triple_single (rstrip s).

(** The part of the escaped-newline guard that reads the previous line. *)
Definition continued (raw : str) : bool :=
  negb (startswith [hash] (lstrip raw))
  && (endswith [backslash; LF] raw
      || endswith [backslash; CR; LF] raw
      || endswith [backslash; CR] raw).

(** The guard of the docstring branch, from the kind of the previous
    token. *)
Definition docstring_after (previous : option token_kind) (t : token)
  : bool :=
  triple_string t
  && match previous with
     | Some k => token_kind_eqb k INDENT
     | None => false
     end.

(** The tokens [ts] lie on row [r], whose raw line is [raw], one after the
    other from column [col] to the end of the line; each text is the slice
    of the line at the token's position and none is taken for a docstring. *)
Fixpoint row_ok (r : Z) (raw : str) (col : Z) (previous : option token_kind)
    (ts : list token) : Prop :=
  match ts with
  | [] => col = Z.of_nat (length raw)
  | t :: rest =>
      start_row t = r /\ end_row t = r /\ line t = raw
      /\ (col <= start_column t <= end_column t)%Z
      /\ token_string t = py_slice raw (start_column t) (end_column t)
      /\ docstring_after previous t = false
      /\ row_ok r raw (end_column t) (Some (token_type t)) rest
  end.

Record row : Type := {
  row_number : Z;
  row_line : str;
  row_tokens : list token
}.

Definition last_kind (previous : option token_kind) (ts : list token)
  : option token_kind :=
  fold_left (fun _ t => Some (token_type t)) ts previous.

(** Rows of increasing numbers after row [above], none empty, none of
    which ends in a line continuation. *)
Fixpoint rows_ok (above : Z) (previous : option token_kind)
    (rs : list row) : Prop :=
  match rs with
  | [] => True
  | r :: rest =>
      (above < row_number r)%Z
      /\ row_tokens r <> []
      /\ row_ok (row_number r) (row_line r) 0 previous (row_tokens r)
      /\ continued (row_line r) = false
      /\ rows_ok (row_number r)
           (last_kind previous (row_tokens r)) rest
  end.

(** The rows of [x = 1] / [y = 2] with the tokens of the tokenizer. *)
Definition first_line : str := L "x = 1" ++ [LF].
Definition two_rows : list row :=
  [ {| row_number := 1; row_line := first_line;
       row_tokens :=
         [ mk_token NAME (L "x") 1 0 1 1 first_line;
           mk_token OP (L "=") 1 2 1 3 first_line;
           mk_token NUMBER (L "1") 1 4 1 5 first_line;
           mk_token NEWLINE [LF] 1 5 1 6 first_line ] |};
    {| row_number := 2; row_line := second_line;
       row_tokens :=
         [ mk_token NAME (L "y") 2 0 2 1 second_line;
           mk_token OP (L "=") 2 2 2 3 second_line;
           mk_token NUMBER (L "2") 2 4 2 5 second_line;
           mk_token NEWLINE [LF] 2 5 2 6 second_line ] |};
    {| row_number := 3; row_line := [];
       row_tokens := [ mk_token ENDMARKER [] 3 0 3 0 [] ] |} ]%Z.

(** ** [textwrap.wrap]

    The wrap capability of the program is [textwrap.wrap] of Python's
    library, called with the text, the width and the two indents and with
    every other option at its default.  It is modelled here after
    [TextWrapper] of Python 3.11: [_munge_whitespace], [_split_chunks] with
    the regular expression [wordsep_re], and [_wrap_chunks] with
    [_handle_long_word].  The chunks are kept in reading order, the head of
    the list being the chunk that Python pops next. *)

Module textwrap.

Definition hyphen : ascii := chr 45.
Definition underscore : ascii := chr 95.

(** [_whitespace], the class [ws] of [wordsep_re]. *)
Definition whitespace : str := [TAB; LF; chr 11; chr 12; CR; SP].
Definition is_ws (c : ascii) : bool := mem c whitespace.

(** The classes [\w], [\d], [letter] and [word_punct] of [wordsep_re]. *)
Definition is_w (c : ascii) : bool := isalnum c || eqc c underscore.
Definition is_d (c : ascii) : bool := between 48 57 (nat_of_ascii c).
Definition is_lt (c : ascii) : bool := is_w c && negb (is_d c).
Definition is_wp (c : ascii) : bool :=
  is_w c || mem c [chr 33; dquote; squote; chr 38; dot; chr 44; chr 63].

(** [s.expandtabs(8)], from column [j]. *)
Fixpoint expandtabs (j : nat) (s : str) : str :=
  match s with
  | [] => []
  | c :: t =>
      if eqc c TAB then
        let incr := 8 - j mod 8 in
        repeat SP incr ++ expandtabs (j + incr) t
      else
        c :: expandtabs (if eqc c LF || eqc c CR then 0 else S j) t
  end.

(** [_munge_whitespace]: tabs expanded, then every whitespace character
    replaced by a space. *)
Definition munge_whitespace (text : str) : str :=
  map (fun c => if is_ws c then SP else c) (expandtabs 0 text).

(** Two hyphens or more, then a [\w] character: [-{2,}(?=\w)]. *)
Fixpoint dashes_then_word (n : nat) (s : str) : bool :=
  match s with
  | [] => false
  | c :: t =>
      if eqc c hyphen then dashes_then_word (S n) t
      else (2 <=? n) && is_w c
  end.

(** The lookbehinds and the lookahead around the hyphen of a hyphenated
    word: [before] is the text before the hyphen, reversed, [after] the text
    after it. *)
Definition hyphen_break (before after : str) : bool :=
  (match before with
   | p0 :: p1 :: rest =>
       (is_lt p0 && is_lt p1)
       || (is_lt p0 && eqc p1 hyphen
           && match rest with p2 :: _ => is_lt p2 | [] => false end)
   | _ => false
   end)
  && (match after with
      | r0 :: r1 :: rest =>
          is_lt r0
          && (is_lt r1
              || (eqc r1 hyphen
                  && match rest with r2 :: _ => is_lt r2 | [] => false end))
      | _ => false
      end).

(** The alternative of [wordsep_re] that the chunk being read matches. *)
Inductive chunk_kind : Type := START | SPACES | DASHES | WORD.

Definition last_is_punct (before : str) : bool :=
  match before with
  | p0 :: _ => is_wp p0
  | [] => false
  end.

(** [_split_chunks]: the non-empty pieces of [wordsep_re.split(text)].
    [before] is the text read so far, reversed, and [cur] the chunk being
    read, reversed. *)
Fixpoint chunks_from (before cur : str) (k : chunk_kind) (s : str)
  : list str :=
  match s with
  | [] => match cur with [] => [] | _ :: _ => [rev cur] end
  | c :: rest =>
      let extend := chunks_from (c :: before) (c :: cur) k rest in
      let fresh :=
        let k' := if is_ws c then SPACES
                  else if last_is_punct before && dashes_then_word 0 s
                       then DASHES else WORD in
        match cur with
        | [] => chunks_from (c :: before) [c] k' rest
        | _ :: _ => rev cur :: chunks_from (c :: before) [c] k' rest
        end in
      match k with
      | START => fresh
      | SPACES => if is_ws c then extend else fresh
      | DASHES => if eqc c hyphen then extend else fresh
      | WORD =>
          if eqc c hyphen && hyphen_break before rest
          then rev (c :: cur) :: chunks_from (c :: before) [] START rest
          else if negb (is_ws c)
                  && negb (last_is_punct before && dashes_then_word 0 s)
               then extend
               else fresh
      end
  end.

Definition split_chunks (text : str) : list str :=
  chunks_from [] [] START text.

(** [chunk.strip() == ''] *)
Definition all_space (chunk : str) : bool := isempty (strip chunk).

Definition len (s : str) : Z := Z.of_nat (length s).

Fixpoint total_len (chunks : list str) : Z :=
  match chunks with
  | [] => 0
  | c :: rest => len c + total_len rest
  end.

(** The inner loop of [_wrap_chunks]: the chunks that fit on the line. *)
Fixpoint take_fitting (width cur_len : Z) (chunks : list str)
  : list str * list str :=
  match chunks with
  | [] => ([], [])
  | c :: rest =>
      if (cur_len + len c <=? width)%Z then
        let (taken, left) := take_fitting width (cur_len + len c) rest in
        (c :: taken, left)
      else ([], chunks)
  end.

(** [chunk.rfind('-')], counting from index [i]. *)
Fixpoint rfind_hyphen (i : nat) (chunk : str) : option nat :=
  match chunk with
  | [] => None
  | c :: t =>
      match rfind_hyphen (S i) t with
      | Some j => Some j
      | None => if eqc c hyphen then Some i else None
      end
  end.

(** Where [_handle_long_word] cuts the chunk. *)
Definition break_at (chunk : str) (space_left : nat) : nat :=
  if space_left <? length chunk then
    match rfind_hyphen 0 (firstn space_left chunk) with
    | Some h =>
        if (0 <? h)
           && existsb (fun c => negb (eqc c hyphen)) (firstn h chunk)
        then h + 1 else space_left
    | None => space_left
    end
  else space_left.

(** The test before [_handle_long_word] and the function itself. *)
Definition handle_long_word (width cur_len : Z) (cur_line chunks : list str)
  : list str * list str :=
  match chunks with
  | c :: rest =>
      if (width <? len c)%Z then
        let space_left := if (width <? 1)%Z then 1%Z
                          else (width - cur_len)%Z in
        let e := break_at c (Z.to_nat space_left) in
        (cur_line ++ [firstn e c], skipn e c :: rest)
      else (cur_line, chunks)
  | [] => (cur_line, chunks)
  end.

(** [del cur_line[-1]] when the last chunk of the line is all whitespace. *)
Definition drop_trailing_space (cur_line : list str) : list str :=
  match rev cur_line with
  | c :: before => if all_space c then rev before else cur_line
  | [] => cur_line
  end.

(** One round of the outer loop of [_wrap_chunks]: the chunks of the next
    line and the chunks left.  [started] tells that a line was produced
    before. *)
Definition next_line (total : Z) (indent : str) (started : bool)
    (chunks : list str) : list str * list str :=
  let width := (total - len indent)%Z in
  let chunks :=
    match chunks with
    | c :: rest => if all_space c && started then rest else chunks
    | [] => []
    end in
  let (cur_line, chunks) := take_fitting width 0 chunks in
  let cur_len := total_len cur_line in
  let (cur_line, chunks) := handle_long_word width cur_len cur_line chunks in
  (drop_trailing_space cur_line, chunks).

(** [_wrap_chunks]: [lines] holds the lines produced so far, the last one
    first.  The loop of Python does not always come to an end; [None] is a
    run that is still going when [fuel] rounds are done. *)
Fixpoint wrap_chunks (fuel : nat) (total : Z) (initial subsequent : str)
    (lines chunks : list str) : option (list str) :=
  match chunks with
  | [] => Some (rev lines)
  | _ :: _ =>
      match fuel with
      | O => None
      | S fuel' =>
          let started := negb (match lines with [] => true | _ => false end) in
          let indent := if started then subsequent else initial in
          let (cur_line, chunks') := next_line total indent started chunks in
          let lines' :=
            match cur_line with
            | [] => lines
            | _ :: _ => (indent ++ concat cur_line) :: lines
            end in
          wrap_chunks fuel' total initial subsequent lines' chunks'
      end
  end.

(** The number of rounds after which a run that ends has ended. *)
Fixpoint rounds (chunks : list str) : nat :=
  match chunks with
  | [] => 1
  | c :: rest => S (length c) + rounds rest
  end.

(** [textwrap.wrap(text, width, initial_indent, subsequent_indent)] for a
    width greater than 0. *)
Definition run (text : str) (width : Z) (initial subsequent : str)
  : option (list str) :=
  let chunks := split_chunks (munge_whitespace text) in
  wrap_chunks (rounds chunks) width initial subsequent [] chunks.

(** The wrap capability handed to the program; where the run does not end
    the value is of no account. *)
Definition wrap (text : str) (width : Z) (initial subsequent : str)
  : list str :=
  match run text width initial subsequent with
  | Some lines => lines
  | None => []
  end.

End textwrap.

(** * Properties *)

(** ** Strings *)

Lemma dropwhile_all (p : ascii -> bool) (s : str) :
  forallb p s = true -> dropwhile p s = [].
Proof.
  induction s as [|c t IH]; simpl; [reflexivity|].
  intros H. apply andb_true_iff in H as [Hc Ht].
  rewrite Hc. auto.
Qed.

Lemma dropwhile_suffix (p : ascii -> bool) (s : str) :
  exists a, s = a ++ dropwhile p s /\ forallb p a = true.
Proof.
  induction s as [|c t [a [IH Ha]]]; simpl.
  - exists []. auto.
  - destruct (p c) eqn:Hc.
    + exists (c :: a). simpl. rewrite Hc, Ha.
      split; [now f_equal|reflexivity].
    + exists []. auto.
Qed.

Lemma dropwhile_head (p : ascii -> bool) (s : str) (c : ascii) (t : str) :
  dropwhile p s = c :: t -> p c = false.
Proof.
  induction s as [|d u IH]; simpl; [discriminate|].
  destruct (p d) eqn:Hd; auto.
  intros E. inversion E; subst. exact Hd.
Qed.

Lemma strip_whitespace_only (s : str) :
  forallb isspace s = true -> strip s = [].
Proof.
  intros H. unfold strip, rstrip.
  rewrite dropwhile_all; [reflexivity|].
  rewrite forallb_forall in *. intros x Hx. apply H.
  now apply in_rev.
Qed.

Lemma strip_empty_whitespace_only (s : str) :
  strip s = [] -> forallb isspace s = true.
Proof.
  unfold strip, lstrip, rstrip. intros H.
  destruct (dropwhile_suffix isspace (rev s)) as [a [Ea Ha]].
  destruct (dropwhile_suffix isspace (rev (dropwhile isspace (rev s))))
    as [b [Eb Hb]].
  rewrite H, app_nil_r in Eb.
  assert (E : rev s = a ++ rev b).
  { rewrite Ea at 1. f_equal. rewrite <- Eb. now rewrite rev_involutive. }
  rewrite forallb_forall in *. intros x Hx.
  apply in_rev in Hx. rewrite E in Hx. apply in_app_or in Hx as [Hx|Hx].
  - auto.
  - apply Hb. now apply in_rev.
Qed.

Lemma eqc_eq (a b : ascii) : eqc a b = true <-> a = b.
Proof. unfold eqc. apply Ascii.eqb_eq. Qed.

Lemma startswith_app (p s : str) : startswith p (p ++ s) = true.
Proof.
  induction p as [|c p IH]; simpl; [reflexivity|].
  rewrite IH. now rewrite (proj2 (eqc_eq c c) eq_refl).
Qed.

Lemma startswith_spec (p s : str) :
  startswith p s = true <-> exists r, s = p ++ r.
Proof.
  split.
  - revert s. induction p as [|c p IH]; intros s H; simpl in *.
    + now exists s.
    + destruct s as [|d s]; [discriminate|].
      apply andb_true_iff in H as [Hc Hp].
      apply eqc_eq in Hc. subst d.
      destruct (IH _ Hp) as [r ->]. now exists r.
  - intros [r ->]. apply startswith_app.
Qed.

Lemma endswith_spec (p s : str) :
  endswith p s = true <-> exists r, s = r ++ p.
Proof.
  unfold endswith. rewrite startswith_spec. split.
  - intros [r E]. exists (rev r).
    rewrite <- (rev_involutive s), E, rev_app_distr.
    now rewrite rev_involutive.
  - intros [r ->]. exists (rev r). now rewrite rev_app_distr.
Qed.

(** An occurrence anywhere is found by [find]. *)
Lemma find_occurrence (sep a b : str) :
  startswith sep b = true -> exists i, find sep (a ++ b) = Some i.
Proof.
  intros H. induction a as [|c a [i IH]]; simpl.
  - destruct b; simpl in *; rewrite H; eauto.
  - destruct (startswith sep (c :: a ++ b)); eauto.
    rewrite IH. simpl. eauto.
Qed.

(** ** [strip_docstring] *)

Lemma strip_docstring_assertion (d : str) :
  strip_docstring d = Raise AssertionError <->
  startswith triple_single (lstrip d) = true
  /\ endswith triple_single (rstrip d) = false.
Proof.
  unfold strip_docstring.
  destruct (startswith triple_single (lstrip d)) eqn:Hs;
    destruct (endswith triple_single (rstrip d)) eqn:He; simpl;
    repeat match goal with
           | |- context [match ?x with _ => _ end] => destruct x
           end;
    intuition congruence.
Qed.

Lemma strip_docstring_single_closed (d : str) :
  startswith triple_single (lstrip d) = true ->
  endswith triple_single (rstrip d) = true ->
  exists contents, strip_docstring d = Ok contents.
Proof.
  intros Hs He. unfold strip_docstring. rewrite Hs, He. simpl.
  destruct (dropwhile_suffix isspace d) as [a [Ea _]].
  destruct (find_occurrence triple_single a _ Hs) as [i Hi].
  fold (lstrip d) in Ea. rewrite <- Ea in Hi.
  unfold split1. rewrite Hi.
  destruct (rsplit1 _ _) as [[body tail]|]; eauto.
Qed.

(** ** [split_summary_and_description] *)

Lemma split_total (contents : str) :
  exists summary description,
    split_summary_and_description contents = Ok (summary, description).
Proof.
  unfold split_summary_and_description.
  destruct (splitlines contents) as [|l1 [|l2 rest]]; simpl.
  - destruct (break_on_first_sentence contents); eauto.
  - destruct (break_on_first_sentence contents); eauto.
  - destruct (strip l2) as [|c u] eqn:E; simpl; eauto.
    destruct (isalnum c); simpl; eauto.
    destruct (break_on_first_sentence contents); eauto.
Qed.

Lemma dropwhile_app_stop (p : ascii -> bool) (u v : str) (c : ascii) :
  p c = false -> dropwhile p (u ++ c :: v) = dropwhile p u ++ c :: v.
Proof.
  intros Hc. induction u as [|d u IH]; simpl.
  - now rewrite Hc.
  - destruct (p d); auto.
Qed.

Lemma rstrip_app_stop (x y : str) (c : ascii) :
  isspace c = false -> rstrip (x ++ c :: y) = x ++ c :: rstrip y.
Proof.
  intros Hc. unfold rstrip.
  rewrite rev_app_distr. simpl. rewrite <- app_assoc. simpl.
  rewrite dropwhile_app_stop by assumption.
  rewrite rev_app_distr. simpl. rewrite rev_involutive.
  now rewrite <- app_assoc.
Qed.

Lemma lstrip_app_stop (a y : str) (c : ascii) :
  forallb isspace a = true -> isspace c = false ->
  lstrip (a ++ c :: y) = c :: y.
Proof.
  intros Ha Hc. unfold lstrip. induction a as [|d a IH]; simpl in *.
  - now rewrite Hc.
  - apply andb_true_iff in Ha as [Hd Ha]. rewrite Hd. auto.
Qed.

(** The stripped text starts with the first non-whitespace character. *)
Lemma strip_head (s : str) (c : ascii) (y : str) :
  lstrip s = c :: y -> strip s = c :: rstrip y.
Proof.
  intros E. pose proof (dropwhile_head _ _ E) as Hc.
  destruct (dropwhile_suffix isspace s) as [a [Ea Ha]].
  fold (lstrip s) in Ea. rewrite E in Ea.
  unfold strip. rewrite Ea, rstrip_app_stop by assumption.
  now apply lstrip_app_stop.
Qed.

Lemma lstrip_empty_strip (s : str) : lstrip s = [] -> strip s = [].
Proof.
  intros E. apply strip_whitespace_only.
  destruct (dropwhile_suffix isspace s) as [a [Ea Ha]].
  fold (lstrip s) in Ea. rewrite E, app_nil_r in Ea. now subst a.
Qed.

Lemma split_blank (contents l1 l2 : str) (rest : list str) :
  splitlines contents = l1 :: l2 :: rest ->
  forallb isspace l2 = true ->
  split_summary_and_description contents = Ok (l1, join [LF] rest).
Proof.
  intros E H. unfold split_summary_and_description. rewrite E. simpl.
  now rewrite (strip_whitespace_only _ H).
Qed.

Lemma split_sentence (contents : str) :
  blank_second_line contents = false ->
  symbol_second_line contents = false ->
  split_summary_and_description contents
  = Ok (break_on_first_sentence contents).
Proof.
  unfold blank_second_line, symbol_second_line,
    split_summary_and_description.
  destruct (splitlines contents) as [|l1 [|l2 rest]]; simpl; auto.
  intros Hb Hs.
  destruct (lstrip l2) as [|c y] eqn:E.
  - apply lstrip_empty_strip, strip_empty_whitespace_only in E. congruence.
  - rewrite (strip_head _ E). simpl. now rewrite Hs.
Qed.

Lemma no_dot_space_tail (c : ascii) (s : str) :
  no_dot_space (c :: s) -> no_dot_space s.
Proof.
  intros H a d b E. apply (H (c :: a) d b). simpl. now f_equal.
Qed.

Lemma re_split_none (s : str) :
  no_dot_space s -> re_split_dot_space s = None.
Proof.
  induction s as [|c r IH]; intros H; simpl; [reflexivity|].
  destruct r as [|d t]; [reflexivity|].
  destruct (eqc c dot && isspace d) eqn:E.
  - apply andb_true_iff in E as [Ec Ed]. apply eqc_eq in Ec. subst c.
    rewrite (H [] d t eq_refl) in Ed. discriminate.
  - now rewrite (IH (no_dot_space_tail H)).
Qed.

Lemma re_split_none_inv (s : str) :
  re_split_dot_space s = None -> no_dot_space s.
Proof.
  induction s as [|c r IH]; intros H a d b E.
  - destruct a; discriminate.
  - simpl in H. destruct r as [|e t].
    + destruct a as [|x [|y a]]; discriminate.
    + destruct (eqc c dot && isspace e) eqn:G; [discriminate|].
      destruct (re_split_dot_space (e :: t)) as [[u v]|] eqn:R;
        [discriminate|].
      destruct a as [|x a]; simpl in E; inversion E; subst.
      * rewrite (proj2 (eqc_eq dot dot) eq_refl) in G. exact G.
      * eapply IH; eauto.
Qed.

Lemma re_split_first (pre post : str) (d : ascii) :
  no_dot_space (pre ++ [dot]) -> isspace d = true ->
  re_split_dot_space (pre ++ dot :: d :: post) = Some (pre, post).
Proof.
  intros H Hd. induction pre as [|c pre IH]; simpl.
  - change (eqc dot dot) with true. simpl. now rewrite Hd.
  - destruct (pre ++ dot :: d :: post) as [|e t] eqn:E.
    + destruct pre; discriminate.
    + assert (G : eqc c dot && isspace e = false).
      { destruct (eqc c dot) eqn:Ec; [|reflexivity]. simpl.
        apply eqc_eq in Ec. subst c.
        destruct pre as [|x pre]; simpl in E; inversion E; subst.
        - reflexivity.
        - apply (H [] e (pre ++ [dot])). reflexivity. }
      rewrite G. rewrite IH; [reflexivity|].
      simpl in H. now apply no_dot_space_tail in H.
Qed.

(** ** [normalize_summary] *)

Lemma forallb_rev (p : ascii -> bool) (s : str) :
  forallb p (rev s) = forallb p s.
Proof.
  destruct (forallb p s) eqn:E.
  - rewrite forallb_forall in *. intros x Hx. apply E. now apply in_rev.
  - destruct (forallb p (rev s)) eqn:F; [|reflexivity].
    rewrite <- E. symmetry. rewrite forallb_forall in *.
    intros x Hx. apply F. now apply in_rev in Hx.
Qed.

Lemma rstrip_whitespace_only (s : str) :
  forallb isspace s = true -> rstrip s = [].
Proof.
  intros H. unfold rstrip. rewrite dropwhile_all; [reflexivity|].
  now rewrite forallb_rev.
Qed.

(** A string is blank, or ends in a non-blank character followed by
    whitespace. *)
Lemma trailing_whitespace (s : str) :
  forallb isspace s = true
  \/ exists a c w, s = a ++ c :: w /\ isspace c = false
                   /\ forallb isspace w = true.
Proof.
  destruct (dropwhile_suffix isspace (rev s)) as [x [Ex Hx]].
  destruct (dropwhile isspace (rev s)) as [|c y] eqn:E.
  - left. rewrite app_nil_r in Ex. subst x. now rewrite forallb_rev in Hx.
  - right. exists (rev y), c, (rev x). repeat split.
    + rewrite <- (rev_involutive s), Ex, rev_app_distr. simpl.
      now rewrite <- app_assoc.
    + exact (dropwhile_head _ _ E).
    + now rewrite forallb_rev.
Qed.

Lemma last_is_snoc (p : ascii -> bool) (u : str) (c : ascii) :
  last_is p (u ++ [c]) = p c.
Proof. unfold last_is. now rewrite rev_app_distr. Qed.

Lemma run_has_newline_stop (a x : str) (c : ascii) :
  isspace c = false ->
  run_has_newline (a ++ c :: x) = run_has_newline (a ++ [c]).
Proof.
  intros Hc. induction a as [|d a IH]; simpl.
  - now rewrite Hc.
  - now rewrite IH.
Qed.

(** The substitution works on each side of a non-blank character on its
    own. *)
Lemma re_sub_app (inside : bool) (a x : str) (c : ascii) :
  isspace c = false ->
  re_sub_newlines inside (a ++ c :: x)
  = re_sub_newlines inside (a ++ [c]) ++ re_sub_newlines false x.
Proof.
  intros Hc. revert inside.
  induction a as [|d a IH]; intros inside; simpl.
  - now rewrite Hc.
  - rewrite (run_has_newline_stop a x c Hc).
    destruct (isspace d); [destruct inside|]; simpl;
      repeat match goal with
             | |- context [if ?b then _ else _] => destruct b
             end; simpl; now rewrite IH.
Qed.

Lemma re_sub_snoc (inside : bool) (a : str) (c : ascii) :
  isspace c = false ->
  exists u, re_sub_newlines inside (a ++ [c]) = u ++ [c].
Proof.
  intros Hc. revert inside.
  induction a as [|d a IH]; intros inside; simpl.
  - rewrite Hc. now exists [].
  - destruct (isspace d); [destruct inside|].
    + apply IH.
    + destruct (eqc d LF || run_has_newline (a ++ [c])).
      * destruct (IH true) as [u ->]. now exists (SP :: u).
      * destruct (IH false) as [u ->]. now exists (d :: u).
    + destruct (IH false) as [u ->]. now exists (d :: u).
Qed.

Lemma re_sub_whitespace_only (inside : bool) (w : str) :
  forallb isspace w = true ->
  forallb isspace (re_sub_newlines inside w) = true.
Proof.
  revert inside. induction w as [|d w IH]; intros inside H; simpl in *;
    [reflexivity|].
  apply andb_true_iff in H as [Hd Hw]. rewrite Hd.
  destruct inside; [auto|].
  destruct (eqc d LF || run_has_newline w); simpl.
  - now apply IH.
  - rewrite Hd. now apply IH.
Qed.

(** Trimming on the right before or after the substitution gives the same
    text. *)
Lemma re_sub_rstrip (s : str) :
  re_sub_newlines false (rstrip s) = rstrip (re_sub_newlines false s).
Proof.
  destruct (trailing_whitespace s) as [H|[a [c [w [-> [Hc Hw]]]]]].
  - rewrite (rstrip_whitespace_only _ H). simpl. symmetry.
    apply rstrip_whitespace_only. now apply re_sub_whitespace_only.
  - rewrite rstrip_app_stop, (rstrip_whitespace_only _ Hw) by assumption.
    rewrite (re_sub_app false a w c Hc).
    destruct (re_sub_snoc false a c Hc) as [u Eu]. rewrite Eu.
    rewrite <- app_assoc. simpl.
    rewrite rstrip_app_stop by assumption.
    rewrite rstrip_whitespace_only; [reflexivity|].
    now apply re_sub_whitespace_only.
Qed.

(** No line feed is left by the substitution. *)
Lemma re_sub_no_newline (inside : bool) (s : str) :
  ~ In LF (re_sub_newlines inside s).
Proof.
  revert inside. induction s as [|c t IH]; intros inside; simpl; [tauto|].
  destruct (isspace c) eqn:Hc.
  - destruct inside; [apply IH|].
    destruct (eqc c LF) eqn:E; simpl.
    + intros [F|F]; [discriminate|]. exact (IH _ F).
    + destruct (run_has_newline t); simpl.
      * intros [F|F]; [discriminate|]. exact (IH _ F).
      * intros [F|F]; [|exact (IH _ F)].
        subst c. discriminate.
  - intros [F|F]; [|exact (IH _ F)]. subst c. discriminate.
Qed.

(** A text without a line feed is left as it is. *)
Lemma run_without_newline (s : str) :
  ~ In LF s -> run_has_newline s = false.
Proof.
  induction s as [|c t IH]; simpl; [reflexivity|].
  intros H. destruct (isspace c); [|reflexivity]. simpl.
  rewrite IH by tauto.
  destruct (eqc c LF) eqn:E; [|reflexivity].
  apply eqc_eq in E. tauto.
Qed.

Lemma re_sub_without_newline (s : str) :
  ~ In LF s -> re_sub_newlines false s = s.
Proof.
  induction s as [|c t IH]; simpl; [reflexivity|].
  intros H. rewrite IH by tauto.
  rewrite (run_without_newline t) by tauto.
  destruct (isspace c); [|reflexivity]. simpl.
  destruct (eqc c LF) eqn:E; [|reflexivity].
  apply eqc_eq in E. tauto.
Qed.

Lemma re_sub_skip (w b : str) :
  forallb isspace w = true ->
  re_sub_newlines true (w ++ b) = re_sub_newlines true b.
Proof.
  induction w as [|d w IH]; simpl; [reflexivity|].
  intros H. apply andb_true_iff in H as [Hd Hw]. now rewrite Hd, IH.
Qed.

Lemma run_with_newline (w b : str) :
  forallb isspace w = true -> In LF w -> run_has_newline (w ++ b) = true.
Proof.
  induction w as [|d w IH]; simpl; [tauto|].
  intros H [E|E]; apply andb_true_iff in H as [Hd Hw]; rewrite Hd; simpl.
  - subst d. reflexivity.
  - rewrite IH by assumption. apply orb_true_r.
Qed.

(** A run of whitespace with a line feed in it, between two non-blank
    characters, becomes one space. *)
Lemma re_sub_run (a w b : str) (c e : ascii) :
  isspace c = false -> isspace e = false ->
  forallb isspace w = true -> In LF w ->
  re_sub_newlines false (a ++ c :: w ++ e :: b)
  = re_sub_newlines false (a ++ [c]) ++ SP :: re_sub_newlines false (e :: b).
Proof.
  intros Hc He Hw Hn. rewrite re_sub_app by assumption. f_equal.
  destruct w as [|d w]; [destruct Hn|].
  pose proof (run_with_newline (d :: w) (e :: b) Hw Hn) as R.
  simpl in Hw. apply andb_true_iff in Hw as [Hd Hw].
  change ((d :: w) ++ e :: b) with (d :: w ++ e :: b) in *.
  unfold re_sub_newlines at 1. fold re_sub_newlines.
  rewrite Hd, R. f_equal. rewrite re_sub_skip by assumption.
  simpl. now rewrite He.
Qed.

(** ** Lines and words *)













(** What [strip] removes is whitespace at both ends. *)
Lemma strip_frame (s : str) :
  exists a b, s = a ++ strip s ++ b
              /\ forallb isspace a = true /\ forallb isspace b = true.
Proof.
  unfold strip, lstrip.
  destruct (dropwhile_suffix isspace (rstrip s)) as [a [Ea Ha]].
  destruct (dropwhile_suffix isspace (rev s)) as [b [Eb Hb]].
  exists a, (rev b). repeat split; trivial.
  - rewrite app_assoc, <- Ea. unfold rstrip.
    rewrite <- rev_app_distr, <- Eb. now rewrite rev_involutive.
  - now rewrite forallb_rev.
Qed.



Lemma dropwhile_idempotent (p : ascii -> bool) (s : str) :
  dropwhile p (dropwhile p s) = dropwhile p s.
Proof.
  induction s as [|c s IH]; simpl; [reflexivity|].
  destruct (p c) eqn:E; [assumption|]. simpl. now rewrite E.
Qed.

Lemma rstrip_idempotent (s : str) : rstrip (rstrip s) = rstrip s.
Proof.
  unfold rstrip. now rewrite rev_involutive, dropwhile_idempotent.
Qed.

Lemma rstrip_strip (s : str) : rstrip (strip s) = strip s.
Proof.
  unfold strip. pose proof (rstrip_idempotent s) as R.
  destruct (lstrip (rstrip s)) as [|c y] eqn:E; [reflexivity|].
  pose proof (dropwhile_head _ _ E) as Hc.
  destruct (dropwhile_suffix isspace (rstrip s)) as [a [Ea _]].
  fold (lstrip (rstrip s)) in Ea. rewrite E in Ea.
  rewrite Ea in R. rewrite rstrip_app_stop in R by assumption.
  apply app_inv_head in R. injection R as Ry.
  pose proof (@rstrip_app_stop [] y c Hc) as G.
  change (rstrip (c :: y) = c :: rstrip y) in G.
  now rewrite G, Ry.
Qed.

Lemma lstrip_strip (s : str) : lstrip (strip s) = strip s.
Proof. unfold strip, lstrip. apply dropwhile_idempotent. Qed.



(** ** Delimiters *)

Lemma find_prefix (sep x : str) : find sep (sep ++ x) = Some 0.
Proof.
  pose proof (startswith_app sep x) as H.
  destruct (sep ++ x); simpl; now rewrite H.
Qed.

Lemma split1_prefix (sep x : str) : split1 sep (sep ++ x) = Some ([], x).
Proof.
  unfold split1. rewrite find_prefix. simpl. f_equal. f_equal.
  induction sep as [|c sep IH]; simpl; auto.
Qed.

Lemma rsplit1_suffix (sep x : str) : rsplit1 sep (x ++ sep) = Some (x, []).
Proof.
  unfold rsplit1. rewrite rev_app_distr, find_prefix. simpl.
  f_equal. f_equal. rewrite <- length_rev.
  replace (skipn (length (rev sep)) (rev sep ++ rev x)) with (rev x).
  - apply rev_involutive.
  - induction (rev sep) as [|c r IH]; simpl; auto.
Qed.

(** The content of a literal written between two delimiters. *)
Lemma strip_docstring_double (body : str) :
  strip_docstring (triple_double ++ body ++ triple_double) = Ok (strip body).
Proof.
  unfold strip_docstring.
  change (lstrip (triple_double ++ body ++ triple_double))
    with (triple_double ++ body ++ triple_double).
  change (startswith triple_single (triple_double ++ body ++ triple_double))
    with false.
  simpl andb. cbv iota. rewrite split1_prefix.
  now rewrite rsplit1_suffix.
Qed.

Lemma strip_docstring_single (body : str) :
  strip_docstring (triple_single ++ body ++ triple_single) = Ok (strip body).
Proof.
  unfold strip_docstring.
  change (lstrip (triple_single ++ body ++ triple_single))
    with (triple_single ++ body ++ triple_single).
  rewrite startswith_app.
  assert (E : endswith triple_single
                (rstrip (triple_single ++ body ++ triple_single)) = true).
  { apply endswith_spec.
    replace (triple_single ++ body ++ triple_single)
      with ((triple_single ++ body ++ [squote; squote]) ++ squote :: [])
      by (simpl; rewrite <- !app_assoc; reflexivity).
    rewrite rstrip_app_stop by reflexivity.
    exists (triple_single ++ body). simpl. rewrite <- !app_assoc.
    reflexivity. }
  rewrite E. simpl andb. cbv iota. rewrite split1_prefix.
  now rewrite rsplit1_suffix.
Qed.

(** A literal written between two delimiters, with three double quotes in
    its content, is left as it is by the transformer. *)
Lemma format_docstring_delimited (wrap : str -> Z -> str -> str -> list str)
    (indentation body delimiter : str) (o : options) :
  delimiter = triple_double \/ delimiter = triple_single ->
  contains triple_double (strip body) = true ->
  format_docstring wrap indentation (delimiter ++ body ++ delimiter) o
  = Ok (delimiter ++ body ++ delimiter).
Proof.
  intros [->| ->] H; unfold format_docstring.
  - rewrite strip_docstring_double. simpl bind. now rewrite H.
  - rewrite strip_docstring_single. simpl bind. now rewrite H.
Qed.

(** ** The continuation segment *)

Lemma dropwhile_app_all (p : ascii -> bool) (x y : str) :
  forallb p x = true -> dropwhile p (x ++ y) = dropwhile p y.
Proof.
  induction x as [|c x IH]; simpl; [reflexivity|].
  intros H. apply andb_true_iff in H as [Hc Hx]. rewrite Hc. auto.
Qed.

Lemma rstrip_chars_app_all (cs r e : str) :
  forallb (fun c => mem c cs) e = true ->
  rstrip_chars cs (r ++ e) = rstrip_chars cs r.
Proof.
  intros H. unfold rstrip_chars. rewrite rev_app_distr.
  rewrite dropwhile_app_all; [reflexivity|]. now rewrite forallb_rev.
Qed.

Lemma rstrip_chars_frame (cs r : str) :
  exists run, r = rstrip_chars cs r ++ run
              /\ forallb (fun c => mem c cs) run = true.
Proof.
  destruct (dropwhile_suffix (fun c => mem c cs) (rev r)) as [x [Ex Hx]].
  exists (rev x). split.
  - unfold rstrip_chars. rewrite <- rev_app_distr, <- Ex.
    now rewrite rev_involutive.
  - now rewrite forallb_rev.
Qed.

Lemma skipn_length_app (a b : str) : skipn (length a) (a ++ b) = b.
Proof. induction a as [|c a IH]; simpl; auto. Qed.

Lemma continuation_ending_chars (ending : str) :
  In ending continuation_endings ->
  forallb (fun c => mem c continuation_chars) ending = true.
Proof.
  intros [<-|[<-|[<-|[]]]]; reflexivity.
Qed.

Lemma endswith_app (p r : str) : endswith p (r ++ p) = true.
Proof. apply endswith_spec. now exists r. Qed.

Lemma continuation_ending_found (r ending : str) :
  In ending continuation_endings ->
  endswith [backslash; LF] (r ++ ending)
  || endswith [backslash; CR; LF] (r ++ ending)
  || endswith [backslash; CR] (r ++ ending) = true.
Proof.
  intros [<-|[<-|[<-|[]]]]; rewrite endswith_app;
    repeat rewrite orb_true_r; reflexivity.
Qed.

(** ** Character classes *)

Lemma alnum_not_space (c : ascii) : isalnum c = true -> isspace c = false.
Proof.
  destruct c as [[] [] [] [] [] [] [] []]; vm_compute; congruence.
Qed.

Lemma last_is_inv (p : ascii -> bool) (s : str) :
  last_is p s = true -> exists u c, s = u ++ [c] /\ p c = true.
Proof.
  unfold last_is. intros H.
  destruct (rev s) as [|c r] eqn:E; [discriminate|].
  exists (rev r), c. split; [|assumption].
  rewrite <- (rev_involutive s), E. reflexivity.
Qed.

(** ** The walker *)

Lemma token_kind_eqb_eq (a b : token_kind) :
  token_kind_eqb a b = true <-> a = b.
Proof. destruct a, b; simpl; split; congruence. Qed.

(** On a token text without surrounding whitespace the guard of the
    docstring branch is the classifier of the specification. *)
Lemma is_docstring_literal (w : walker) (t : token) :
  (token_type t = STRING -> strip (token_string t) = token_string t) ->
  is_docstring w t = true <-> docstring_literal w t.
Proof.
  intros G. unfold is_docstring, docstring_literal, starts_with_triple.
  rewrite !andb_true_iff, token_kind_eqb_eq. split.
  - intros [[Hk Ht] Hp]. rewrite (G Hk) in Ht.
    apply orb_true_iff in Ht. repeat split; trivial.
    destruct (previous_token_type w) as [k|]; [|discriminate].
    apply token_kind_eqb_eq in Hp. now subst k.
  - intros [Hk [Ht Hp]]. rewrite (G Hk), Hp.
    repeat split; trivial. now apply orb_true_iff.
Qed.

Lemma escaped_segment_ending (w : walker) (r ending : str) :
  In ending continuation_endings ->
  previous_line w = r ++ ending ->
  exists run,
    r = rstrip_chars continuation_chars r ++ run
    /\ forallb (fun c => mem c continuation_chars) run = true
    /\ escaped_segment w = run ++ ending.
Proof.
  intros Hin E.
  destruct (rstrip_chars_frame continuation_chars r) as [run [Er Hr]].
  exists run. repeat split; trivial.
  unfold escaped_segment. rewrite E.
  rewrite rstrip_chars_app_all by now apply continuation_ending_chars.
  rewrite Er at 2. rewrite <- app_assoc. apply skipn_length_app.
Qed.

(** * The claims *)

Section Claims.

Variable textwrap_wrap : str -> Z -> str -> str -> list str.

(** C9: a docstring that opens with three single quotes is checked to close
    with them.  [strip_docstring] raises the assertion error exactly when the
    left-stripped text starts with the delimiter and the right-stripped text
    does not end with it; when it does end with it, the content is returned,
    so the failing branch is not reached. *)
Theorem strip_docstring_checks_single_quotes (docstring : str) :
  (strip_docstring docstring = Raise AssertionError <->
   startswith triple_single (lstrip docstring) = true
   /\ endswith triple_single (rstrip docstring) = false)
  /\ (startswith triple_single (lstrip docstring) = true ->
      endswith triple_single (rstrip docstring) = true ->
      exists contents, strip_docstring docstring = Ok contents).
Proof.
  split.
  - apply strip_docstring_assertion.
  - apply strip_docstring_single_closed.
Qed.

(** C10: [split_summary_and_description] returns a pair on every string:
    neither the indexing of the lines nor the indexing of the first character
    of the stripped second line is ever out of bounds. *)
Theorem split_summary_and_description_total (contents : str) :
  exists summary description,
    split_summary_and_description contents = Ok (summary, description).
Proof.
  destruct (split_total contents) as [summary [description E]].
  now exists summary, description.
Qed.

(** C5: when the content has at least two lines and the second one is
    whitespace-only, the summary is the first line and the description is
    the lines from the third one on, joined by line feeds. *)
Theorem split_blank_line_rule (contents l1 l2 : str) (rest : list str) :
  splitlines contents = l1 :: l2 :: rest ->
  forallb isspace l2 = true ->
  split_summary_and_description contents = Ok (l1, join [LF] rest).
Proof.
  intros E H. eapply split_blank; eassumption.
Qed.

(** C4, as amended: when neither the blank-second-line rule nor the
    symbol-on-second-line rule applies, the content is cut at the first
    period that is followed by a whitespace character (a space, a tab, a
    line feed, ...): the summary is the stripped text before it with the
    period put back, the description is the stripped text after the
    whitespace character.  Without such a period the summary is the stripped
    content and the description is empty. *)
Theorem split_sentence_rule (contents : str) :
  blank_second_line contents = false ->
  symbol_second_line contents = false ->
  (forall pre post d,
      contents = pre ++ dot :: d :: post ->
      isspace d = true ->
      no_dot_space (pre ++ [dot]) ->
      split_summary_and_description contents
      = Ok (strip pre ++ [dot], strip post))
  /\ (no_dot_space contents ->
      split_summary_and_description contents = Ok (strip contents, [])).
Proof.
  intros Hb Hs. rewrite (split_sentence _ Hb Hs).
  unfold break_on_first_sentence. split.
  - intros pre post d -> Hd Hn. now rewrite re_split_first.
  - intros Hn. now rewrite re_split_none.
Qed.

(** C6: [normalize_summary] is the text with every whitespace run around a
    line feed collapsed and then right-trimmed (the program trims first, and
    the order does not matter), with a period appended exactly when that text
    is non-empty and ends in an alphanumeric character.  A run of whitespace
    holding a line feed, between two non-blank characters, becomes a single
    space, and a text without a line feed is left alone; no line feed
    remains.  A summary that ends in an alphanumeric character is normalized
    to a text that ends in a period. *)
Theorem normalize_summary_spec (summary : str) :
  let joined := rstrip (re_sub_newlines false summary) in
  normalize_summary summary
  = (if negb (isempty joined) && last_is isalnum joined
     then joined ++ [dot] else joined)
  /\ (forall a w b c e,
         summary = a ++ c :: w ++ e :: b ->
         isspace c = false -> isspace e = false ->
         forallb isspace w = true -> In LF w ->
         re_sub_newlines false summary
         = re_sub_newlines false (a ++ [c])
           ++ SP :: re_sub_newlines false (e :: b))
  /\ (~ In LF summary -> re_sub_newlines false summary = summary)
  /\ ~ In LF (normalize_summary summary)
  /\ (last_is isalnum summary = true ->
      exists text, normalize_summary summary = text ++ [dot]).
Proof.
  cbv zeta. unfold normalize_summary. rewrite re_sub_rstrip.
  split; [reflexivity|]. split.
  { intros a w b c e -> Hc He Hw Hn. now apply re_sub_run. }
  split; [apply re_sub_without_newline|]. split.
  - rewrite <- re_sub_rstrip.
    destruct (_ && _); [|apply re_sub_no_newline].
    intros H. apply in_app_or in H as [H|[H|[]]]; [|discriminate].
    exact (re_sub_no_newline _ _ H).
  - intros H. rewrite <- re_sub_rstrip.
    destruct (last_is_inv _ _ H) as [u [c [-> Hc]]].
    pose proof (alnum_not_space _ Hc) as Hs.
    rewrite (@rstrip_app_stop u [] c Hs).
    change (rstrip []) with (@nil ascii).
    destruct (re_sub_snoc false u c Hs) as [v Ev]. rewrite Ev.
    rewrite last_is_snoc, Hc.
    replace (isempty (v ++ [c])) with false by (now destruct v).
    simpl. now exists (v ++ [c]).
Qed.

(** C2: a raw docstring whose content holds three double quotes in a row is
    returned as it is, whatever the indentation and the options. *)
Theorem format_docstring_nested_quotes (indentation docstring contents : str)
    (o : options) :
  strip_docstring docstring = Ok contents ->
  contains triple_double contents = true ->
  format_docstring textwrap_wrap indentation docstring o = Ok docstring.
Proof.
  intros E H. unfold format_docstring. rewrite E. simpl. now rewrite H.
Qed.

(** One step of the walker, on a token whose text carries no surrounding
    whitespace: the token is handed to the transformer if and only if it is
    of kind STRING, its text begins with three double or three single
    quotes, and the walker recorded the kind INDENT for the token before. *)
Lemma walk_classifier (o : options) (w : walker)
    (t : token) :
  (token_type t = STRING -> strip (token_string t) = token_string t) ->
  (docstring_literal w t ->
   walk textwrap_wrap o w t
   = (text <- format_docstring textwrap_wrap (previous_token_string w)
                (token_string t) o ;;
      Ok (advance w t text)))
  /\ (~ docstring_literal w t ->
      walk textwrap_wrap o w t = Ok (advance w t (token_string t))
      /\ exists before,
           formatted (advance w t (token_string t))
           = before ++ token_string t).
Proof.
  intros G. pose proof (is_docstring_literal w t G) as I.
  unfold walk. split; intros H.
  - apply I in H. now rewrite H.
  - destruct (is_docstring w t) eqn:E.
    + exfalso. apply H, I. reflexivity.
    + split; [reflexivity|]. simpl. eexists.
      rewrite !app_assoc. reflexivity.
Qed.

(** One step of the walker: when the previous raw line does not start, once
    left-stripped, with a comment marker, ends in a backslash followed by a
    line feed, by a carriage return and a line feed or by a carriage return,
    and the token starts on a later row, the walker appends the trailing
    segment of that line before the spacing and the text of a token that is
    not a docstring. *)
Lemma walk_escaped_segment (o : options) (w : walker)
    (t : token) (r ending : str) :
  startswith [hash] (lstrip (previous_line w)) = false ->
  (last_row w < start_row t)%Z ->
  In ending continuation_endings ->
  previous_line w = r ++ ending ->
  is_docstring w t = false ->
  exists run,
    previous_line w = rstrip_chars continuation_chars r ++ run ++ ending
    /\ forallb (fun c => mem c continuation_chars) run = true
    /\ walk textwrap_wrap o w t = Ok (advance w t (token_string t))
    /\ formatted (advance w t (token_string t))
       = formatted w ++ (run ++ ending) ++ spacing w t ++ token_string t.
Proof.
  intros Hh Hr Hin E Hd.
  destruct (escaped_segment_ending w r Hin E) as [run [Er [Hrun Es]]].
  exists run. repeat split; trivial.
  - rewrite E. rewrite Er at 1. now rewrite <- app_assoc.
  - unfold walk. now rewrite Hd.
  - simpl. unfold escaped_newline.
    rewrite Hh, E, (continuation_ending_found r Hin), Es.
    apply Z.ltb_lt in Hr. now rewrite Hr.
Qed.


(** C1: on the text [x = 1  # c \] followed by [y = 2], which holds no
    docstring, [format_code] returns a text with a line of a space and a
    backslash added between the two lines: the program guards the
    escaped-newline branch against lines that start with a comment but not
    against a comment at the end of a line. *)
Theorem format_code_trailing_comment (o : options) :
  forallb well_placed comment_tokens = true
  /\ format_code textwrap_wrap comment_tokens o
     = Ok (comment_line ++ L " \" ++ [LF] ++ second_line)
  /\ comment_line ++ L " \" ++ [LF] ++ second_line <> comment_source.
Proof.
  split; [reflexivity|]. split; [reflexivity|].
  vm_compute. discriminate.
Qed.

End Claims.

(** * Instances and counterexamples *)

(** The check of C9 on a closed and on an unclosed literal. *)
Lemma strip_docstring_checks_single_quotes_witness :
  (exists contents,
      strip_docstring (triple_single ++ L "a" ++ triple_single) = Ok contents)
  /\ strip_docstring (triple_single ++ L "a") = Raise AssertionError.
Proof.
  split.
  - apply (proj2 (strip_docstring_checks_single_quotes
                    (triple_single ++ L "a" ++ triple_single)));
      reflexivity.
  - apply (proj1 (strip_docstring_checks_single_quotes
                    (triple_single ++ L "a"))).
    split; reflexivity.
Defined.

(** The blank-line rule of C5 on the content of the specification. *)
Lemma split_blank_line_rule_witness :
  split_summary_and_description
    (L "Summary line." ++ [LF; LF] ++ L "Body text here.")
  = Ok (L "Summary line.", L "Body text here.").
Proof.
  apply (@split_blank_line_rule
           (L "Summary line." ++ [LF; LF] ++ L "Body text here.")
           (L "Summary line.") [] [L "Body text here."]);
    reflexivity.
Defined.

(** The sentence rule of C4 on the content of the specification. *)
Lemma split_sentence_rule_witness :
  split_summary_and_description (L "Do the thing. Then explain more.")
  = Ok (L "Do the thing.", L "Then explain more.").
Proof.
  apply (proj1 (@split_sentence_rule (L "Do the thing. Then explain more.")
                  eq_refl eq_refl)
           (L "Do the thing") (L "Then explain more.") SP).
  - reflexivity.
  - reflexivity.
  - apply re_split_none_inv. reflexivity.
Defined.

(** C4 as stated fails: a period followed by a line feed, not by a space,
    also ends the summary.  On [A.] / [b] neither of the first two rules
    applies, the program returns the summary [A.] and the description [b],
    and a split on a period and a space would return the whole content as
    the summary. *)
Lemma split_on_period_space_refuted :
  let contents := L "A." ++ [LF] ++ L "b" in
  blank_second_line contents = false
  /\ symbol_second_line contents = false
  /\ split_summary_and_description contents = Ok (L "A.", L "b")
  /\ split_on_period_space contents = (contents, [])
  /\ split_summary_and_description contents
     <> Ok (split_on_period_space contents).
Proof.
  cbv zeta. repeat split; try reflexivity.
  vm_compute. discriminate.
Qed.

(** The last part of C6 on a summary without its period. *)
Lemma normalize_summary_spec_witness :
  exists text, normalize_summary (L "Hello world") = text ++ [dot].
Proof.
  apply (proj2 (proj2 (proj2 (proj2
           (normalize_summary_spec (L "Hello world")))))).
  reflexivity.
Defined.

(** C2 on a literal in single quotes whose content holds three double
    quotes. *)
Lemma format_docstring_nested_quotes_witness :
  let docstring :=
    triple_single ++ L "a" ++ triple_double ++ L "b" ++ triple_single in
  format_docstring one_line (L "    ") docstring default_options
  = Ok docstring.
Proof.
  cbv zeta.
  apply (@format_docstring_nested_quotes one_line (L "    ")
           (triple_single ++ L "a" ++ triple_double ++ L "b"
            ++ triple_single)
           (L "a" ++ triple_double ++ L "b") default_options);
    reflexivity.
Defined.



(** * Further properties of the program *)

(** ** Trimming *)

Lemma rstrip_frame (s : str) :
  exists b, s = rstrip s ++ b /\ forallb isspace b = true.
Proof.
  destruct (dropwhile_suffix isspace (rev s)) as [x [Ex Hx]].
  exists (rev x). split.
  - unfold rstrip. rewrite <- rev_app_distr, <- Ex.
    now rewrite rev_involutive.
  - now rewrite forallb_rev.
Qed.

Lemma lstrip_strip_frame (s : str) :
  exists b, lstrip s = strip s ++ b /\ forallb isspace b = true.
Proof.
  destruct (lstrip s) as [|c y] eqn:E.
  - exists []. rewrite (lstrip_empty_strip _ E). auto.
  - rewrite (strip_head _ E).
    destruct (rstrip_frame y) as [b [Eb Hb]].
    exists b. split; [|assumption]. simpl. now rewrite <- Eb.
Qed.

Lemma strip_idempotent (s : str) : strip (strip s) = strip s.
Proof.
  unfold strip at 1. rewrite rstrip_strip. apply lstrip_strip.
Qed.

Lemma space_not_eqc (a d : ascii) :
  isspace a = false -> isspace d = true -> eqc a d = false.
Proof.
  intros Ha Hd. destruct (eqc a d) eqn:E; [|reflexivity].
  apply eqc_eq in E. congruence.
Qed.

(** A prefix without whitespace is not affected by trailing whitespace. *)
Lemma startswith_trailing (p u b : str) :
  forallb (fun c => negb (isspace c)) p = true ->
  forallb isspace b = true ->
  startswith p (u ++ b) = startswith p u.
Proof.
  intros Hp Hb. revert u. induction p as [|a p IH]; intros u;
    [reflexivity|].
  simpl in Hp. apply andb_true_iff in Hp as [Ha Hp].
  apply negb_true_iff in Ha.
  destruct u as [|c u]; simpl.
  - destruct b as [|d b]; [reflexivity|].
    simpl in Hb. apply andb_true_iff in Hb as [Hd _].
    now rewrite (space_not_eqc _ _ Ha Hd).
  - now rewrite IH.
Qed.

Lemma startswith_strip (p s : str) :
  forallb (fun c => negb (isspace c)) p = true ->
  startswith p (strip s) = startswith p (lstrip s).
Proof.
  intros Hp. destruct (lstrip_strip_frame s) as [b [E Hb]].
  rewrite E. symmetry. now apply startswith_trailing.
Qed.

Lemma str_eqb_eq (a b : str) : str_eqb a b = true <-> a = b.
Proof.
  revert b. induction a as [|x a IH]; intros [|y b]; simpl;
    try (split; [discriminate|congruence]); [tauto|].
  rewrite andb_true_iff, eqc_eq, IH. split.
  - intros [-> ->]. reflexivity.
  - intros E. inversion E. auto.
Qed.

Lemma dropwhile_length (p : ascii -> bool) (s : str) :
  length (dropwhile p s) <= length s.
Proof.
  induction s as [|c s IH]; simpl; [lia|].
  destruct (p c); simpl; lia.
Qed.

Lemma strip_quoted (c1 c2 : ascii) (x : str) :
  isspace c1 = false -> isspace c2 = false ->
  strip (c1 :: x ++ [c2]) = c1 :: x ++ [c2].
Proof.
  intros H1 H2. unfold strip.
  change (c1 :: x ++ [c2]) with ((c1 :: x) ++ c2 :: []).
  rewrite rstrip_app_stop by assumption.
  change (rstrip []) with (@nil ascii).
  unfold lstrip. simpl. now rewrite H1.
Qed.

(** ** [normalize_summary], continued *)

Lemma normalize_summary_no_newline (s : str) : ~ In LF (normalize_summary s).
Proof.
  unfold normalize_summary.
  destruct (_ && _); [|apply re_sub_no_newline].
  intros H. apply in_app_or in H as [H|[H|[]]]; [|discriminate].
  exact (re_sub_no_newline _ _ H).
Qed.

Lemma normalize_summary_trimmed (s : str) :
  rstrip (normalize_summary s) = normalize_summary s.
Proof.
  unfold normalize_summary. rewrite re_sub_rstrip.
  destruct (_ && _).
  - rewrite (@rstrip_app_stop _ [] dot eq_refl).
    reflexivity.
  - apply rstrip_idempotent.
Qed.

Lemma normalize_summary_last (s : str) :
  last_is isalnum (normalize_summary s) = false.
Proof.
  unfold normalize_summary.
  destruct (negb _ && _) eqn:E.
  - now rewrite last_is_snoc.
  - destruct (re_sub_newlines false (rstrip s)) as [|c t]; [reflexivity|].
    exact E.
Qed.

Lemma normalize_summary_fixed (s : str) :
  normalize_summary (normalize_summary s) = normalize_summary s.
Proof.
  pose proof (normalize_summary_no_newline s) as Hn.
  pose proof (normalize_summary_trimmed s) as Ht.
  pose proof (normalize_summary_last s) as Hl.
  set (n := normalize_summary s) in *.
  unfold normalize_summary. rewrite Ht.
  rewrite (re_sub_without_newline _ Hn), Hl.
  now rewrite andb_false_r.
Qed.

(** ** [indent_non_indented], continued *)

Lemma indent_non_indented_head (line indentation : str) :
  indent_non_indented line indentation
  = match line with
    | [] => indentation
    | c :: _ => if isspace c then line else indentation ++ line
    end.
Proof.
  unfold indent_non_indented. destruct line as [|c y].
  - simpl. now rewrite app_nil_r.
  - unfold lstrip. simpl. destruct (isspace c) eqn:Hc.
    + destruct (str_eqb (dropwhile isspace y) (c :: y)) eqn:E;
        [|reflexivity].
      apply str_eqb_eq in E.
      pose proof (dropwhile_length isspace y) as Hlen.
      rewrite E in Hlen. simpl in Hlen. lia.
    + now rewrite (proj2 (str_eqb_eq (c :: y) (c :: y)) eq_refl).
Qed.

Lemma indent_non_indented_twice (line indentation : str) :
  forallb isspace indentation = true ->
  indent_non_indented (indent_non_indented line indentation) indentation
  = indent_non_indented line indentation.
Proof.
  intros Hi. rewrite (indent_non_indented_head line).
  destruct line as [|c y].
  - rewrite indent_non_indented_head.
    destruct indentation as [|d i]; [reflexivity|].
    simpl in Hi. apply andb_true_iff in Hi as [Hd _]. now rewrite Hd.
  - destruct (isspace c) eqn:Hc.
    + rewrite indent_non_indented_head. now rewrite Hc.
    + rewrite indent_non_indented_head.
      destruct indentation as [|d i]; simpl.
      * now rewrite Hc.
      * simpl in Hi. apply andb_true_iff in Hi as [Hd _]. now rewrite Hd.
Qed.

(** ** [strip_docstring] and [starts_with_triple], continued *)

Lemma strip_docstring_stripped (docstring contents : str) :
  strip_docstring docstring = Ok contents -> strip contents = contents.
Proof.
  unfold strip_docstring.
  destruct (_ && _); [discriminate|].
  destruct (split1 _ _) as [[head rest]|]; [|discriminate].
  destruct (rsplit1 _ _) as [[body tail]|]; intros E;
    inversion E; apply strip_idempotent.
Qed.

Lemma starts_with_triple_lstrip (s : str) :
  starts_with_triple s
  = startswith triple_double (lstrip s)
    || startswith triple_single (lstrip s).
Proof.
  unfold starts_with_triple.
  now rewrite !startswith_strip by reflexivity.
Qed.

Lemma lstrip_occurrence (sep s : str) :
  startswith sep (lstrip s) = true -> exists i, find sep s = Some i.
Proof.
  intros H. destruct (dropwhile_suffix isspace s) as [a [Ea _]].
  fold (lstrip s) in Ea.
  destruct (find_occurrence sep a _ H) as [i Hi].
  rewrite <- Ea in Hi. eauto.
Qed.

Lemma double_not_single (s : str) :
  startswith triple_double s = true -> startswith triple_single s = false.
Proof.
  intros H. apply startswith_spec in H as [r ->]. reflexivity.
Qed.

(** On a text that [starts_with_triple] accepts, the content is returned
    unless the single-quote check fails. *)
Lemma strip_docstring_triple (docstring : str) :
  starts_with_triple docstring = true ->
  if startswith triple_single (lstrip docstring)
     && negb (endswith triple_single (rstrip docstring))
  then strip_docstring docstring = Raise AssertionError
  else exists contents, strip_docstring docstring = Ok contents.
Proof.
  rewrite starts_with_triple_lstrip. intros H.
  destruct (startswith triple_single (lstrip docstring)) eqn:Hs.
  - destruct (endswith triple_single (rstrip docstring)) eqn:He; simpl.
    + now apply strip_docstring_single_closed.
    + apply strip_docstring_assertion. auto.
  - rewrite orb_false_r in H. simpl.
    unfold strip_docstring. rewrite Hs. simpl.
    destruct (lstrip_occurrence _ _ H) as [i Hi].
    unfold split1. rewrite Hi.
    destruct (rsplit1 _ _) as [[body tail]|]; eauto.
Qed.

Section Transformer.

Variable textwrap_wrap : str -> Z -> str -> str -> list str.

Lemma format_docstring_of_contents (indentation docstring contents : str)
    (o : options) :
  strip_docstring docstring = Ok contents ->
  exists text,
    format_docstring textwrap_wrap indentation docstring o = Ok text.
Proof.
  intros E. unfold format_docstring. rewrite E. simpl.
  destruct (contains triple_double contents); [eauto|].
  destruct (split_total contents) as [summary [description ->]]. simpl.
  destruct (negb (isempty description)); eauto.
Qed.

Lemma format_docstring_triple (indentation docstring : str) (o : options) :
  starts_with_triple docstring = true ->
  if startswith triple_single (lstrip docstring)
     && negb (endswith triple_single (rstrip docstring))
  then format_docstring textwrap_wrap indentation docstring o
       = Raise AssertionError
  else exists text,
         format_docstring textwrap_wrap indentation docstring o = Ok text.
Proof.
  intros H. pose proof (strip_docstring_triple docstring H) as S.
  destruct (_ && _).
  - unfold format_docstring. now rewrite S.
  - destruct S as [contents E].
    now apply format_docstring_of_contents with contents.
Qed.

End Transformer.

(** ** The symbol rule *)

Lemma split_symbol (contents l1 l2 : str) (rest : list str) (c : ascii)
    (y : str) :
  splitlines contents = l1 :: l2 :: rest ->
  lstrip l2 = c :: y ->
  isalnum c = false ->
  split_summary_and_description contents
  = Ok (l1, join [LF] (l2 :: rest)).
Proof.
  intros E Hl Hc. unfold split_summary_and_description. rewrite E.
  simpl. rewrite (strip_head _ Hl). simpl. now rewrite Hc.
Qed.

(** ** The continuation segment, continued *)

Lemma escaped_segment_chars (w : walker) :
  forallb (fun c => mem c continuation_chars) (escaped_segment w) = true.
Proof.
  unfold escaped_segment.
  destruct (rstrip_chars_frame continuation_chars (previous_line w))
    as [run [E H]].
  rewrite E at 2. now rewrite skipn_length_app.
Qed.

(** ** Docstrings of one line *)

Lemma splitlines_one_line (cur s : str) :
  one_physical_line s = true -> length (splitlines_from cur s) <= 1.
Proof.
  unfold one_physical_line. revert cur.
  induction s as [|c s IH]; intros cur H; simpl in *.
  - destruct cur; simpl; lia.
  - apply andb_true_iff in H as [Hc Hs].
    apply negb_true_iff in Hc. rewrite Hc. auto.
Qed.

Lemma split_one_line (contents : str) :
  one_physical_line contents = true ->
  split_summary_and_description contents
  = Ok (break_on_first_sentence contents).
Proof.
  intros H. pose proof (splitlines_one_line [] contents H) as Hl.
  fold (splitlines contents) in Hl.
  unfold split_summary_and_description.
  destruct (splitlines contents) as [|l1 [|l2 rest]]; simpl in *;
    try reflexivity; lia.
Qed.

Lemma forallb_strip (p : ascii -> bool) (s : str) :
  forallb p s = true -> forallb p (strip s) = true.
Proof.
  destruct (strip_frame s) as [a [b [E _]]]. intros H.
  rewrite E in H. rewrite !forallb_app in H.
  apply andb_true_iff in H as [_ H].
  now apply andb_true_iff in H as [H _].
Qed.

Lemma one_line_no_newline (s : str) :
  one_physical_line s = true -> ~ In LF s.
Proof.
  unfold one_physical_line. intros H Hin.
  rewrite forallb_forall in H. specialize (H LF Hin). discriminate.
Qed.

Lemma normalize_summary_plain (s : str) :
  ~ In LF s -> rstrip s = s ->
  normalize_summary s = s ++ (if last_is isalnum s then [dot] else []).
Proof.
  intros Hn Hr. unfold normalize_summary.
  rewrite Hr, (re_sub_without_newline _ Hn).
  destruct s as [|c t]; [reflexivity|]. simpl negb. simpl andb.
  destruct (last_is isalnum (c :: t)); [reflexivity|].
  now rewrite app_nil_r.
Qed.

Lemma strip_triple_quoted (n : str) :
  strip (triple_double ++ n ++ triple_double)
  = triple_double ++ n ++ triple_double.
Proof.
  replace (triple_double ++ n ++ triple_double)
    with (dquote :: ([dquote; dquote] ++ n ++ [dquote; dquote]) ++ [dquote])
    by (simpl; rewrite <- !app_assoc; reflexivity).
  now apply strip_quoted.
Qed.

Lemma no_dot_space_snoc (s : str) (c : ascii) :
  isspace c = false -> no_dot_space s -> no_dot_space (s ++ [c]).
Proof.
  intros Hc H a d b E.
  destruct (rev b) as [|x rb] eqn:Eb.
  - apply (f_equal (@rev ascii)) in Eb. rewrite rev_involutive in Eb.
    simpl in Eb. subst b.
    change (a ++ [dot; d]) with (a ++ [dot] ++ [d]) in E.
    rewrite app_assoc in E. apply app_inj_tail in E as [_ E].
    now subst d.
  - apply (f_equal (@rev ascii)) in Eb. rewrite rev_involutive in Eb.
    simpl in Eb. subst b.
    change (a ++ dot :: d :: rev rb ++ [x])
      with (a ++ (dot :: d :: rev rb) ++ [x]) in E.
    rewrite app_assoc in E. apply app_inj_tail in E as [E _].
    exact (H a d (rev rb) E).
Qed.

Lemma startswith_triple_snoc (s : str) (c : ascii) :
  eqc dquote c = false ->
  startswith triple_double (s ++ [c]) = startswith triple_double s.
Proof.
  intros Hc. unfold triple_double.
  destruct s as [|x [|y [|z s]]]; cbn [startswith app];
    rewrite ?Hc; cbn [andb]; rewrite ?andb_false_r; reflexivity.
Qed.

Lemma find_triple_snoc (s : str) (c : ascii) :
  eqc dquote c = false ->
  find triple_double s = None -> find triple_double (s ++ [c]) = None.
Proof.
  intros Hc. induction s as [|x s IH]; intros H.
  - unfold triple_double. cbn [app find startswith]. now rewrite Hc.
  - change ((x :: s) ++ [c]) with (x :: s ++ [c]).
    unfold find in *. fold find in *.
    change (x :: s ++ [c]) with ((x :: s) ++ [c]).
    rewrite (startswith_triple_snoc (x :: s) c Hc).
    destruct (startswith triple_double (x :: s)); [discriminate|].
    destruct (find triple_double s); [discriminate|].
    now rewrite IH.
Qed.

Lemma contains_triple_snoc (s : str) (c : ascii) :
  eqc dquote c = false ->
  contains triple_double s = false ->
  contains triple_double (s ++ [c]) = false.
Proof.
  unfold contains. intros Hc H.
  destruct (find triple_double s) eqn:E; [discriminate|].
  now rewrite (find_triple_snoc s c Hc E).
Qed.

Section OneLine.

Variable textwrap_wrap : str -> Z -> str -> str -> list str.

Lemma format_docstring_one_line_normalized
    (indentation body delimiter : str) (o : options) :
  delimiter = triple_double \/ delimiter = triple_single ->
  one_physical_line body = true ->
  no_dot_space (strip body) ->
  contains triple_double (strip body) = false ->
  (summary_wrap_length o <= 0)%Z ->
  format_docstring textwrap_wrap indentation
    (delimiter ++ body ++ delimiter) o
  = Ok (triple_double ++ normalize_summary (strip body) ++ triple_double).
Proof.
  intros Hq Hl Hd Hc Hw.
  assert (E : strip_docstring (delimiter ++ body ++ delimiter)
              = Ok (strip body)).
  { destruct Hq as [->| ->];
      [apply strip_docstring_double|apply strip_docstring_single]. }
  unfold format_docstring. rewrite E. simpl bind. rewrite Hc.
  rewrite split_one_line by now apply forallb_strip.
  unfold break_on_first_sentence. rewrite (re_split_none Hd).
  cbn [bind isempty negb]. unfold wrap_summary.
  apply Z.ltb_ge in Hw. rewrite Hw.
  f_equal. apply strip_triple_quoted.
Qed.

End OneLine.

(** ** The walker, continued *)

Lemma is_docstring_after (w : walker) (t : token) :
  is_docstring w t = docstring_after (previous_token_type w) t.
Proof. reflexivity. Qed.

Lemma escaped_newline_continued (w : walker) (t : token) :
  continued (previous_line w) = false -> escaped_newline w t = false.
Proof.
  unfold continued, escaped_newline. intros H.
  destruct (negb _); [|reflexivity]. simpl in *. rewrite H.
  apply andb_false_r.
Qed.

Section Walker.

Variable textwrap_wrap : str -> Z -> str -> str -> list str.

Lemma walk_all_app (o : options) (w : walker) (a b : list token) :
  walk_all textwrap_wrap o w (a ++ b)
  = (w' <- walk_all textwrap_wrap o w a ;; walk_all textwrap_wrap o w' b).
Proof.
  revert w. induction a as [|t a IH]; intros w; simpl; [reflexivity|].
  destruct (walk textwrap_wrap o w t) as [w1|e]; simpl; auto.
Qed.

Lemma walk_extends (o : options) (w w' : walker) (t : token) :
  walk textwrap_wrap o w t = Ok w' ->
  exists text, formatted w' = formatted w ++ text.
Proof.
  unfold walk. destruct (if is_docstring w t then _ else _) as [text|e];
    simpl; [|discriminate].
  intros E. inversion E. simpl. eauto.
Qed.

Lemma walk_all_extends (o : options) (ts : list token) (w w' : walker) :
  walk_all textwrap_wrap o w ts = Ok w' ->
  exists text, formatted w' = formatted w ++ text.
Proof.
  revert w. induction ts as [|t ts IH]; intros w; simpl.
  - intros E. inversion E. exists []. now rewrite app_nil_r.
  - destruct (walk textwrap_wrap o w t) as [w1|e] eqn:E1; simpl;
      [|discriminate].
    intros E. destruct (walk_extends _ _ _ E1) as [x Hx].
    destruct (IH _ E) as [y Hy]. exists (x ++ y).
    now rewrite Hy, Hx, app_assoc.
Qed.

Lemma walk_outcome (o : options) (w : walker) (t : token) :
  if is_docstring w t && negb (closed_single (token_string t))
  then walk textwrap_wrap o w t = Raise AssertionError
  else exists w', walk textwrap_wrap o w t = Ok w'.
Proof.
  unfold walk. destruct (is_docstring w t) eqn:D; simpl; [|eauto].
  assert (T : starts_with_triple (token_string t) = true).
  { unfold is_docstring in D.
    apply andb_true_iff in D as [D _].
    now apply andb_true_iff in D as [_ D]. }
  pose proof (format_docstring_triple textwrap_wrap
                (previous_token_string w) (token_string t) o T) as F.
  unfold closed_single. rewrite negb_orb, negb_involutive.
  destruct (_ && _).
  - now rewrite F.
  - destruct F as [text ->]. simpl. eauto.
Qed.

Lemma walk_all_outcome (o : options) (ts : list token) (w : walker) :
  (exists w', walk_all textwrap_wrap o w ts = Ok w')
  \/ walk_all textwrap_wrap o w ts = Raise AssertionError.
Proof.
  revert w. induction ts as [|t ts IH]; intros w; simpl; [eauto|].
  pose proof (walk_outcome o w t) as H.
  destruct (_ && _).
  - rewrite H. now right.
  - destruct H as [w1 ->]. simpl. apply IH.
Qed.

Lemma walk_all_closed (o : options) (ts : list token) (w : walker) :
  forallb (fun t => negb (triple_string t) || closed_single (token_string t))
    ts = true ->
  exists w', walk_all textwrap_wrap o w ts = Ok w'.
Proof.
  revert w. induction ts as [|t ts IH]; intros w H; simpl in *; [eauto|].
  apply andb_true_iff in H as [Ht Hts].
  pose proof (walk_outcome o w t) as W.
  rewrite is_docstring_after in W. unfold docstring_after in W.
  destruct (triple_string t); simpl in *.
  - rewrite Ht in W. rewrite andb_false_r in W.
    destruct W as [w1 ->]. simpl. auto.
  - destruct W as [w1 ->]. simpl. auto.
Qed.

End Walker.

Lemma walk_all_plain (wrap1 wrap2 : str -> Z -> str -> str -> list str)
    (o1 o2 : options) (ts : list token) (w : walker) :
  forallb (fun t => negb (triple_string t)) ts = true ->
  walk_all wrap1 o1 w ts = walk_all wrap2 o2 w ts.
Proof.
  revert w. induction ts as [|t ts IH]; intros w H; simpl in *;
    [reflexivity|].
  apply andb_true_iff in H as [Ht Hts]. apply negb_true_iff in Ht.
  unfold walk. rewrite is_docstring_after. unfold docstring_after.
  rewrite Ht. simpl. auto.
Qed.

(** ** Slices *)

Lemma firstn_app_skipn (k m : nat) (l : str) :
  firstn k l ++ firstn m (skipn k l) = firstn (k + m) l.
Proof.
  revert l. induction k as [|k IH]; intros l; simpl; [reflexivity|].
  destruct l as [|c l]; simpl.
  - now rewrite firstn_nil.
  - now rewrite IH.
Qed.

Lemma clamp_nonneg (len i : Z) :
  (0 <= i)%Z -> clamp len i = Z.min i len.
Proof.
  intros H. unfold clamp.
  destruct (i <? 0)%Z eqn:E; [|reflexivity].
  apply Z.ltb_lt in E. lia.
Qed.

Lemma py_slice_app (s : str) (a b c : Z) :
  (0 <= a <= b)%Z -> (b <= c)%Z ->
  py_slice s a b ++ py_slice s b c = py_slice s a c.
Proof.
  intros Hab Hbc. unfold py_slice.
  rewrite !clamp_nonneg by lia.
  set (len := Z.of_nat (length s)).
  assert (Hlen : (0 <= len)%Z) by (unfold len; lia).
  replace (Z.to_nat (Z.min b len))
    with (Z.to_nat (Z.min b len - Z.min a len) + Z.to_nat (Z.min a len))
    by lia.
  rewrite <- skipn_skipn, firstn_app_skipn. f_equal. lia.
Qed.

Lemma py_slice_empty (s : str) (a : Z) :
  (0 <= a)%Z -> py_slice s a a = [].
Proof.
  intros H. unfold py_slice. now rewrite Z.sub_diag.
Qed.

Lemma py_slice_all (s : str) : py_slice s 0 (Z.of_nat (length s)) = s.
Proof.
  unfold py_slice. rewrite !clamp_nonneg by lia.
  replace (Z.to_nat (Z.min 0 (Z.of_nat (length s)))) with 0 by lia.
  replace (Z.to_nat (Z.min (Z.of_nat (length s)) (Z.of_nat (length s))
                     - Z.min 0 (Z.of_nat (length s))))
    with (length s) by lia.
  simpl. apply firstn_all.
Qed.

Lemma spacing_slice (w : walker) (t : token) (col : Z) :
  col = (if (last_row w <? start_row t)%Z then 0%Z else last_column w) ->
  (0 <= col <= start_column t)%Z ->
  spacing w t = py_slice (line t) col (start_column t).
Proof.
  intros E H. unfold spacing. rewrite <- E.
  destruct (col <? start_column t)%Z eqn:C; [reflexivity|].
  apply Z.ltb_ge in C. replace (start_column t) with col by lia.
  now rewrite py_slice_empty.
Qed.

(** ** Rows without docstrings and continuations *)

Section Rows.

Variable textwrap_wrap : str -> Z -> str -> str -> list str.

(** One token of a row, from the cursor [col]. *)
Lemma walk_plain_token (o : options) (w : walker) (t : token) (raw : str)
    (col : Z) :
  col = (if (last_row w <? start_row t)%Z then 0%Z else last_column w) ->
  escaped_newline w t = false ->
  line t = raw ->
  (0 <= col <= start_column t)%Z ->
  (start_column t <= end_column t)%Z ->
  token_string t = py_slice raw (start_column t) (end_column t) ->
  docstring_after (previous_token_type w) t = false ->
  exists w',
    walk textwrap_wrap o w t = Ok w'
    /\ formatted w' = formatted w ++ py_slice raw col (end_column t)
    /\ last_row w' = end_row t
    /\ last_column w' = end_column t
    /\ previous_line w' = raw
    /\ previous_token_type w' = Some (token_type t).
Proof.
  intros Ec He Hl Hc Hse Ht Hd.
  unfold walk. rewrite is_docstring_after, Hd.
  eexists. split; [reflexivity|]. simpl.
  rewrite He, (spacing_slice w t Ec Hc), Hl, Ht. simpl.
  rewrite py_slice_app by lia. auto.
Qed.

Lemma row_ok_bound (ts : list token) (r : Z) (raw : str) (col : Z)
    (previous : option token_kind) :
  row_ok r raw col previous ts -> (col <= Z.of_nat (length raw))%Z.
Proof.
  revert col previous. induction ts as [|t ts IH]; simpl; intros col k H.
  - lia.
  - destruct H as [_ [_ [_ [Hu [_ [_ Hn]]]]]].
    specialize (IH _ _ Hn). lia.
Qed.

(** The rest of a row, from the end of one of its tokens. *)
Lemma walk_rest_of_row (o : options) (ts : list token) (w : walker)
    (r : Z) (raw : str) :
  last_row w = r ->
  (0 <= last_column w)%Z ->
  previous_line w = raw ->
  row_ok r raw (last_column w) (previous_token_type w) ts ->
  exists w',
    walk_all textwrap_wrap o w ts = Ok w'
    /\ formatted w'
       = formatted w
         ++ py_slice raw (last_column w) (Z.of_nat (length raw))
    /\ last_row w' = r
    /\ previous_line w' = raw
    /\ previous_token_type w' = last_kind (previous_token_type w) ts.
Proof.
  revert w. induction ts as [|t ts IH]; intros w Hr Hc Hp H; simpl in H.
  - exists w. rewrite H, py_slice_empty, app_nil_r by lia. auto.
  - destruct H as [Hs [He [Hl [Hcol [Ht [Hd Hrest]]]]]].
    pose proof (row_ok_bound _ _ _ _ _ Hrest) as Hend.
    assert (Ecol : last_column w
                   = if (last_row w <? start_row t)%Z then 0%Z
                     else last_column w).
    { rewrite Hr, Hs, Z.ltb_irrefl. reflexivity. }
    assert (Hesc : escaped_newline w t = false).
    { unfold escaped_newline. rewrite Hr, Hs, Z.ltb_irrefl.
      now rewrite andb_false_r. }
    destruct (walk_plain_token o w t Ecol Hesc Hl) as
      [w1 [E1 [F1 [R1 [C1 [P1 K1]]]]]]; try lia; trivial.
    rewrite <- C1, <- K1 in Hrest.
    destruct (IH w1) as [w' [E' [F' [R' [P' K']]]]];
      try congruence; try lia.
    exists w'. simpl. rewrite E1. simpl. repeat split; trivial.
    + rewrite F', F1, C1, <- app_assoc. f_equal.
      apply py_slice_app; lia.
    + rewrite K', K1. reflexivity.
Qed.

(** A whole row, reached from an earlier row. *)
Lemma walk_row (o : options) (w : walker) (r : row) :
  (last_row w < row_number r)%Z ->
  continued (previous_line w) = false ->
  row_tokens r <> [] ->
  row_ok (row_number r) (row_line r) 0 (previous_token_type w)
    (row_tokens r) ->
  exists w',
    walk_all textwrap_wrap o w (row_tokens r) = Ok w'
    /\ formatted w' = formatted w ++ row_line r
    /\ last_row w' = row_number r
    /\ previous_line w' = row_line r
    /\ previous_token_type w'
       = last_kind (previous_token_type w) (row_tokens r).
Proof.
  intros Hr Hc Hne H.
  destruct (row_tokens r) as [|t ts]; [congruence|]. simpl in H.
  destruct H as [Hs [He [Hl [Hcol [Ht [Hd Hrest]]]]]].
  pose proof (row_ok_bound _ _ _ _ _ Hrest) as Hend.
  assert (Ecol : 0%Z = if (last_row w <? start_row t)%Z then 0%Z
                       else last_column w).
  { rewrite Hs. apply Z.ltb_lt in Hr. now rewrite Hr. }
  pose proof (escaped_newline_continued w t Hc) as Hesc.
  destruct (walk_plain_token o w t Ecol Hesc Hl) as
    [w1 [E1 [F1 [R1 [C1 [P1 K1]]]]]]; try lia; trivial.
  rewrite <- C1, <- K1 in Hrest.
  destruct (@walk_rest_of_row o ts w1 (row_number r) (row_line r))
    as [w' [E' [F' [R' [P' K']]]]]; try congruence; try lia.
  exists w'. simpl. rewrite E1. simpl. repeat split; trivial.
  - rewrite F', F1, C1, <- app_assoc. f_equal.
    rewrite py_slice_app by lia. apply py_slice_all.
  - rewrite K', K1. reflexivity.
Qed.

Lemma walk_rows (o : options) (rs : list row) (w : walker) :
  continued (previous_line w) = false ->
  rows_ok (last_row w) (previous_token_type w) rs ->
  exists w',
    walk_all textwrap_wrap o w (concat (map row_tokens rs)) = Ok w'
    /\ formatted w' = formatted w ++ concat (map row_line rs).
Proof.
  revert w. induction rs as [|r rs IH]; intros w Hc H; simpl.
  - exists w. now rewrite app_nil_r.
  - simpl in H. destruct H as [Hr [Hne [Hrow [Hcont Hrest]]]].
    destruct (walk_row o w r Hr Hc Hne Hrow)
      as [w1 [E1 [F1 [R1 [P1 K1]]]]].
    destruct (IH w1) as [w' [E' F']].
    + now rewrite P1.
    + now rewrite R1, K1.
    + exists w'. rewrite walk_all_app, E1. simpl.
      split; [assumption|]. now rewrite F', F1, app_assoc.
Qed.

End Rows.

(** ** Formatting a one-line docstring twice *)

Lemma normalized_one_line (body : str) :
  one_physical_line body = true ->
  no_dot_space (strip body) ->
  contains triple_double (strip body) = false ->
  let n := normalize_summary (strip body) in
  one_physical_line n = true
  /\ strip n = n
  /\ no_dot_space n
  /\ contains triple_double n = false.
Proof.
  intros Hl Hd Hc. cbv zeta.
  pose proof (forallb_strip _ _ Hl) as Hl'.
  fold (one_physical_line (strip body)) in Hl'.
  pose proof (normalize_summary_trimmed (strip body)) as Ht.
  rewrite (normalize_summary_plain (one_line_no_newline _ Hl')
             (rstrip_strip body)) in *.
  destruct (last_is isalnum (strip body)) eqn:La.
  - destruct (strip body) as [|x y] eqn:Es; [discriminate|].
    assert (Hx : isspace x = false).
    { unfold strip in Es. exact (dropwhile_head _ _ Es). }
    repeat split.
    + unfold one_physical_line in *. rewrite forallb_app, Hl'. reflexivity.
    + unfold strip. rewrite Ht. unfold lstrip. simpl. now rewrite Hx.
    + now apply no_dot_space_snoc.
    + now apply contains_triple_snoc.
  - rewrite app_nil_r in *. repeat split; trivial.
    apply strip_idempotent.
Qed.

(** * Properties of the program beyond the specification *)

Section Extras.

Variable textwrap_wrap : str -> Z -> str -> str -> list str.

(** X1: normalizing a summary twice gives what normalizing it once gives. *)
Theorem normalize_summary_idempotent (summary : str) :
  normalize_summary (normalize_summary summary) = normalize_summary summary.
Proof. apply normalize_summary_fixed. Qed.

(** X2: a normalized summary has no whitespace at its end and its last
    character, if it has one, is not alphanumeric. *)
Theorem normalize_summary_ending (summary : str) :
  rstrip (normalize_summary summary) = normalize_summary summary
  /\ last_is isalnum (normalize_summary summary) = false.
Proof.
  split; [apply normalize_summary_trimmed|apply normalize_summary_last].
Qed.

(** X3: [indent_non_indented] looks at the first character of the line
    only: an empty line becomes the indentation, a line that starts with a
    whitespace character is kept, any other line gets the indentation in
    front. *)
Theorem indent_non_indented_cases (line indentation : str) :
  indent_non_indented line indentation
  = match line with
    | [] => indentation
    | c :: _ => if isspace c then line else indentation ++ line
    end.
Proof. apply indent_non_indented_head. Qed.

(** X4: with an indentation made of whitespace, indenting a line a second
    time changes nothing. *)
Theorem indent_non_indented_idempotent (line indentation : str) :
  forallb isspace indentation = true ->
  indent_non_indented (indent_non_indented line indentation) indentation
  = indent_non_indented line indentation.
Proof. apply indent_non_indented_twice. Qed.

(** X5: the content that [strip_docstring] returns has no whitespace at
    either end. *)
Theorem strip_docstring_contents_stripped (docstring contents : str) :
  strip_docstring docstring = Ok contents -> strip contents = contents.
Proof. apply strip_docstring_stripped. Qed.

(** X6: [starts_with_triple] holds exactly when the text, after its leading
    whitespace, begins with three double or three single quotes; whitespace
    at the end of the text plays no part. *)
Theorem starts_with_triple_leading_whitespace (string : str) :
  starts_with_triple string
  = startswith triple_double (lstrip string)
    || startswith triple_single (lstrip string).
Proof. apply starts_with_triple_lstrip. Qed.

(** X7: on a text accepted by [starts_with_triple], [format_docstring]
    raises the assertion error when the text opens with three single quotes
    and does not close with them, and returns a text in every other case;
    the indexing of the split parts is never out of bounds. *)
Theorem format_docstring_fails_only_unclosed (indentation docstring : str)
    (o : options) :
  starts_with_triple docstring = true ->
  if startswith triple_single (lstrip docstring)
     && negb (endswith triple_single (rstrip docstring))
  then format_docstring textwrap_wrap indentation docstring o
       = Raise AssertionError
  else exists text,
         format_docstring textwrap_wrap indentation docstring o = Ok text.
Proof. apply format_docstring_triple. Qed.

(** X8: when the content has at least two lines and the second one is not
    blank and starts, after its leading whitespace, with a character that is
    not alphanumeric, the summary is the first line and the description is
    the lines from the second one on, joined by line feeds. *)
Theorem split_symbol_rule (contents l1 l2 : str) (rest : list str)
    (c : ascii) (y : str) :
  splitlines contents = l1 :: l2 :: rest ->
  lstrip l2 = c :: y ->
  isalnum c = false ->
  split_summary_and_description contents
  = Ok (l1, join [LF] (l2 :: rest)).
Proof. apply split_symbol. Qed.

(** X9: whatever the previous line is, the segment that the escaped-newline
    branch appends holds only spaces, tabs, line feeds, carriage returns and
    backslashes. *)
Theorem escaped_segment_only_continuation_chars (w : walker) :
  forallb (fun c => mem c continuation_chars) (escaped_segment w) = true.
Proof. apply escaped_segment_chars. Qed.

(** X10: a docstring written on one physical line between three double or
    three single quotes, whose stripped body has no period followed by
    whitespace and no three double quotes in a row, is formatted, when no
    wrapping is asked for, as three double quotes, the stripped body, a
    period when the stripped body ends in an alphanumeric character, and
    three double quotes. *)
Theorem format_docstring_one_line (indentation body delimiter : str)
    (o : options) :
  delimiter = triple_double \/ delimiter = triple_single ->
  one_physical_line body = true ->
  no_dot_space (strip body) ->
  contains triple_double (strip body) = false ->
  (summary_wrap_length o <= 0)%Z ->
  format_docstring textwrap_wrap indentation
    (delimiter ++ body ++ delimiter) o
  = Ok (triple_double ++ strip body
        ++ (if last_is isalnum (strip body) then [dot] else [])
        ++ triple_double).
Proof.
  intros Hq Hl Hd Hc Hw.
  rewrite format_docstring_one_line_normalized by assumption.
  rewrite normalize_summary_plain.
  - now rewrite <- app_assoc.
  - apply one_line_no_newline. now apply forallb_strip.
  - apply rstrip_strip.
Qed.

(** X11: under the conditions of X10, formatting the result again returns
    it unchanged. *)
Theorem format_docstring_one_line_idempotent
    (indentation body delimiter text : str) (o : options) :
  delimiter = triple_double \/ delimiter = triple_single ->
  one_physical_line body = true ->
  no_dot_space (strip body) ->
  contains triple_double (strip body) = false ->
  (summary_wrap_length o <= 0)%Z ->
  format_docstring textwrap_wrap indentation
    (delimiter ++ body ++ delimiter) o = Ok text ->
  format_docstring textwrap_wrap indentation text o = Ok text.
Proof.
  intros Hq Hl Hd Hc Hw E.
  rewrite format_docstring_one_line_normalized in E by assumption.
  assert (Et : text = triple_double ++ normalize_summary (strip body)
                     ++ triple_double) by congruence.
  subst text. clear E.
  destruct (normalized_one_line body Hl Hd Hc) as [Nl [Ns [Nd Nc]]].
  pose proof (@format_docstring_one_line_normalized textwrap_wrap
                indentation (normalize_summary (strip body)) triple_double
                o (or_introl eq_refl) Nl) as G.
  rewrite Ns in G. rewrite (G Nd Nc Hw).
  now rewrite normalize_summary_fixed.
Qed.

(** X12: the tokens already walked are never revisited: when [format_code]
    fails on a token stream it fails in the same way on every longer one,
    and when it returns a text on both, the text for the longer stream
    begins with the text for the shorter one. *)
Theorem format_code_prefix (o : options) (a b : list token) :
  (forall e, format_code textwrap_wrap a o = Raise e ->
             format_code textwrap_wrap (a ++ b) o = Raise e)
  /\ (forall out1 out2,
         format_code textwrap_wrap a o = Ok out1 ->
         format_code textwrap_wrap (a ++ b) o = Ok out2 ->
         exists text, out2 = out1 ++ text).
Proof.
  unfold format_code. rewrite walk_all_app.
  destruct (walk_all textwrap_wrap o initial_walker a) as [w1|e1]; simpl.
  - split; [discriminate|]. intros out1 out2 E1 E2. inversion E1; subst.
    destruct (walk_all textwrap_wrap o w1 b) as [w2|e2] eqn:Eb; simpl in E2;
      [|discriminate].
    inversion E2; subst. exact (walk_all_extends _ _ _ _ Eb).
  - split; [auto|]. discriminate.
Qed.

(** X13: on a token stream that the tokenizer has delivered, the loop of
    [format_code] returns a text or raises the assertion error, never an
    index error; it returns a text whenever every STRING token accepted by
    [starts_with_triple] that opens with three single quotes also closes with
    them. *)
Theorem format_code_outcome (o : options) (tokens : list token) :
  ((exists out, format_code textwrap_wrap tokens o = Ok out)
   \/ format_code textwrap_wrap tokens o = Raise AssertionError)
  /\ (forallb (fun t => negb (triple_string t)
                        || closed_single (token_string t)) tokens = true ->
      exists out, format_code textwrap_wrap tokens o = Ok out).
Proof.
  unfold format_code. split.
  - destruct (walk_all_outcome textwrap_wrap o tokens initial_walker)
      as [[w' ->]| ->]; simpl; eauto.
  - intros H.
    destruct (walk_all_closed textwrap_wrap o tokens initial_walker H)
      as [w' ->].
    simpl. eauto.
Qed.

(** X15: on rows of increasing numbers whose tokens lie one after the other
    on their raw line up to its end, each with the slice of the line at its
    position as its text, where no line ends in a line continuation and no
    token is taken for a docstring, [format_code] returns the raw lines one
    after the other. *)
Theorem format_code_plain_rows (o : options) (rs : list row) :
  rows_ok 0 None rs ->
  format_code textwrap_wrap (concat (map row_tokens rs)) o
  = Ok (concat (map row_line rs)).
Proof.
  intros H. unfold format_code.
  destruct (walk_rows textwrap_wrap o rs initial_walker eq_refl H)
    as [w' [-> F]].
  simpl. now rewrite F.
Qed.

End Extras.

(** X14: on a token stream without a STRING token accepted by
    [starts_with_triple], the result of [format_code] depends neither on the
    options nor on the wrap capability. *)
Theorem format_code_ignores_options
    (wrap1 wrap2 : str -> Z -> str -> str -> list str) (o1 o2 : options)
    (tokens : list token) :
  forallb (fun t => negb (triple_string t)) tokens = true ->
  format_code wrap1 tokens o1 = format_code wrap2 tokens o2.
Proof.
  intros H. unfold format_code.
  now rewrite (walk_all_plain wrap1 wrap2 o1 o2 tokens initial_walker H).
Qed.

(** * Instances of the further properties *)

Lemma indent_non_indented_idempotent_witness :
  indent_non_indented (indent_non_indented (L "text") (L "    ")) (L "    ")
  = indent_non_indented (L "text") (L "    ").
Proof.
  apply (indent_non_indented_idempotent (L "text") (L "    ")).
  reflexivity.
Defined.

Lemma strip_docstring_contents_stripped_witness :
  strip (L "abc") = L "abc".
Proof.
  apply (@strip_docstring_contents_stripped
           (triple_single ++ L "  abc " ++ triple_single) (L "abc")).
  reflexivity.
Defined.

Lemma format_docstring_fails_only_unclosed_witness :
  (exists text,
      format_docstring one_line (L "    ")
        (triple_single ++ L "a" ++ triple_single) default_options = Ok text)
  /\ format_docstring one_line (L "    ") (triple_single ++ L "a")
       default_options = Raise AssertionError.
Proof.
  split.
  - exact (@format_docstring_fails_only_unclosed one_line (L "    ")
             (triple_single ++ L "a" ++ triple_single) default_options
             eq_refl).
  - exact (@format_docstring_fails_only_unclosed one_line (L "    ")
             (triple_single ++ L "a") default_options eq_refl).
Defined.

Lemma split_symbol_rule_witness :
  split_summary_and_description (L "Summary" ++ [LF] ++ L "- item")
  = Ok (L "Summary", L "- item").
Proof.
  apply (@split_symbol_rule (L "Summary" ++ [LF] ++ L "- item")
           (L "Summary") (L "- item") [] "-"%char (L " item"));
    reflexivity.
Defined.

Lemma format_docstring_one_line_witness :
  format_docstring one_line (L "    ")
    (triple_double ++ L "   Hello world   " ++ triple_double) default_options
  = Ok (triple_double ++ L "Hello world." ++ triple_double).
Proof.
  apply (@format_docstring_one_line one_line (L "    ")
           (L "   Hello world   ") triple_double default_options).
  - left. reflexivity.
  - reflexivity.
  - apply re_split_none_inv. reflexivity.
  - reflexivity.
  - apply Z.le_refl.
Defined.

Lemma format_docstring_one_line_idempotent_witness :
  format_docstring one_line (L "    ")
    (triple_double ++ L "Hello world." ++ triple_double) default_options
  = Ok (triple_double ++ L "Hello world." ++ triple_double).
Proof.
  apply (@format_docstring_one_line_idempotent one_line (L "    ")
           (L "   Hello world   ") triple_single
           (triple_double ++ L "Hello world." ++ triple_double)
           default_options).
  - right. reflexivity.
  - reflexivity.
  - apply re_split_none_inv. reflexivity.
  - reflexivity.
  - apply Z.le_refl.
  - reflexivity.
Defined.

Lemma format_code_prefix_witness :
  let a := concat (map row_tokens (firstn 1 two_rows)) in
  let b := concat (map row_tokens (skipn 1 two_rows)) in
  format_code one_line a default_options = Ok first_line
  /\ format_code one_line (a ++ b) default_options
     = Ok (first_line ++ second_line)
  /\ exists text, first_line ++ second_line = first_line ++ text.
Proof.
  cbv zeta. split; [reflexivity|]. split; [reflexivity|].
  apply (proj2 (@format_code_prefix one_line default_options
                  (concat (map row_tokens (firstn 1 two_rows)))
                  (concat (map row_tokens (skipn 1 two_rows))))
           first_line (first_line ++ second_line));
    reflexivity.
Defined.

Lemma format_code_outcome_witness :
  (exists out,
      format_code one_line docstring_tokens default_options = Ok out)
  /\ format_code one_line unclosed_tokens default_options
     = Raise AssertionError.
Proof.
  split.
  - apply (proj2 (@format_code_outcome one_line default_options
                    docstring_tokens)).
    reflexivity.
  - destruct (proj1 (@format_code_outcome one_line default_options
                       unclosed_tokens)) as [[out E]|E].
    + vm_compute in E. discriminate E.
    + exact E.
Defined.

Lemma format_code_ignores_options_witness :
  format_code one_line comment_tokens default_options
  = format_code wrapped_long_summary comment_tokens
      {| summary_wrap_length := 40;
         pre_summary_newline := true;
         post_description_blank := false |}.
Proof.
  apply (@format_code_ignores_options one_line wrapped_long_summary
           default_options _ comment_tokens).
  reflexivity.
Defined.

Lemma format_code_plain_rows_witness :
  format_code one_line (concat (map row_tokens two_rows)) default_options
  = Ok (first_line ++ second_line).
Proof.
  apply (@format_code_plain_rows one_line default_options two_rows).
  simpl. repeat split; try reflexivity; try discriminate.
Defined.

(** * The claims on the token stream *)

Section Stream.

Variable textwrap_wrap : str -> Z -> str -> str -> list str.

Lemma walk_result (o : options) (w w' : walker) (t : token) :
  walk textwrap_wrap o w t = Ok w' -> w' = after_token t (formatted w').
Proof.
  unfold walk.
  destruct (if is_docstring w t then _ else _) as [text|e]; simpl;
    [|discriminate].
  intros E. inversion E. reflexivity.
Qed.

Lemma walk_all_last (o : options) (before : list token) (p : token)
    (w w' : walker) :
  walk_all textwrap_wrap o w (before ++ [p]) = Ok w' ->
  w' = after_token p (formatted w').
Proof.
  rewrite walk_all_app.
  destruct (walk_all textwrap_wrap o w before) as [w1|e]; simpl;
    [|discriminate].
  destruct (walk textwrap_wrap o w1 p) as [w2|e] eqn:E; simpl;
    [|discriminate].
  intros H. inversion H; subst. exact (walk_result _ _ _ E).
Qed.

Lemma docstring_literal_after_token (p t : token) (out : str) :
  docstring_literal (after_token p out) t <-> docstring_literal_after p t.
Proof.
  unfold docstring_literal, docstring_literal_after. simpl.
  split; intros [Hk [Ht Hp]]; repeat split; trivial; congruence.
Qed.

(** C3: in the token stream, with the STRING texts of the tokenizer (no
    surrounding whitespace), [format_code] hands a token to the transformer
    if and only if the token is of kind STRING, its text begins with three
    double or three single quotes, and the token just before it in the
    stream is of kind INDENT; the text of that INDENT token is the
    indentation argument.  The text of every other token, and of the first
    token of the stream, is written as it is, after the text written for the
    tokens before it and the gap between the two tokens. *)
Theorem format_code_rewrites_docstring_literals (o : options)
    (before : list token) (p t : token) (rest : list token) (out : str) :
  (token_type t = STRING -> strip (token_string t) = token_string t) ->
  format_code textwrap_wrap (before ++ [p]) o = Ok out ->
  (docstring_literal_after p t ->
   format_code textwrap_wrap (before ++ p :: t :: rest) o
   = (text <- format_docstring textwrap_wrap (token_string p)
                (token_string t) o ;;
      w' <- walk_all textwrap_wrap o
              (after_token t (out ++ gap (after_token p out) t ++ text))
              rest ;;
      Ok (formatted w')))
  /\ (~ docstring_literal_after p t ->
      format_code textwrap_wrap (before ++ p :: t :: rest) o
      = (w' <- walk_all textwrap_wrap o
                 (after_token t
                    (out ++ gap (after_token p out) t ++ token_string t))
                 rest ;;
         Ok (formatted w')))
  /\ format_code textwrap_wrap (t :: rest) o
     = (w' <- walk_all textwrap_wrap o
                (after_token t (gap initial_walker t ++ token_string t))
                rest ;;
        Ok (formatted w')).
Proof.
  intros G Hout.
  assert (Hw : walk_all textwrap_wrap o initial_walker (before ++ [p])
               = Ok (after_token p out)).
  { unfold format_code in Hout.
    destruct (walk_all textwrap_wrap o initial_walker (before ++ [p]))
      as [w0|e] eqn:E; simpl in Hout; [|discriminate].
    inversion Hout; subst. f_equal. exact (walk_all_last _ _ _ _ E). }
  assert (Hadv : forall w text,
             advance w t text
             = after_token t (formatted w ++ gap w t ++ text)).
  { intros w text. unfold advance, after_token, gap.
    now rewrite <- app_assoc. }
  destruct (walk_classifier textwrap_wrap o (after_token p out) t G)
    as [Hyes Hno].
  change (before ++ p :: t :: rest) with (before ++ [p] ++ t :: rest).
  rewrite app_assoc. unfold format_code. rewrite walk_all_app, Hw.
  simpl bind. repeat split.
  - intros H. apply docstring_literal_after_token with (out := out) in H.
    cbn [walk_all]. rewrite (Hyes H).
    destruct (format_docstring _ _ _ _) as [text|e]; simpl; [|reflexivity].
    now rewrite Hadv.
  - intros H. cbn [walk_all].
    destruct Hno as [Hno _].
    { intros D. apply H. now apply docstring_literal_after_token in D. }
    rewrite Hno. simpl bind. now rewrite Hadv.
  - cbn [walk_all]. unfold walk. simpl bind.
    change (is_docstring initial_walker t)
      with (triple_string t && false).
    rewrite andb_false_r. simpl bind. now rewrite Hadv.
Qed.

(** C8: on the text [x = 1 + \] / [    \] / [    2], whose second line
    holds only a line-continuation backslash and so carries no token,
    [format_code] returns the first and the third line: the escaped-newline
    branch reads the raw line of the previous token, and the second line is
    lost. *)
Theorem format_code_continuation_only_line (o : options) :
  forallb well_placed continuation_tokens = true
  /\ format_code textwrap_wrap continuation_tokens o
     = Ok (sum_line ++ operand_line)
  /\ sum_line ++ operand_line <> continuation_source.
Proof.
  split; [reflexivity|]. split; [reflexivity|].
  vm_compute. discriminate.
Qed.

End Stream.

(** C3 on the docstring of a function body: the token after the INDENT
    token is rewritten, with the text of the INDENT token as indentation. *)
Lemma format_code_rewrites_docstring_literals_witness :
  format_code one_line docstring_tokens default_options
  = (text <- format_docstring one_line (L "    ") docstring_text
               default_options ;;
     w' <- walk_all one_line default_options
             (after_token docstring_token
                ((def_line ++ L "    ")
                 ++ gap (after_token indent_token (def_line ++ L "    "))
                      docstring_token
                 ++ text))
             end_tokens ;;
     Ok (formatted w')).
Proof.
  apply (proj1 (@format_code_rewrites_docstring_literals one_line
                  default_options def_tokens indent_token docstring_token
                  end_tokens (def_line ++ L "    ")
                  (fun _ => eq_refl) eq_refl)).
  repeat split. right. reflexivity.
Defined.
